(** * Nuua compiler: the AST-to-bytecode emitter

    A shallow embedding of [Compiler/src/compiler.cpp] (the emitter) and of
    [Lexer/src/tokens.cpp] (the token enumeration and the text of a token),
    with the properties of the emitter that its specification states and
    properties that the code itself shows.

    The emitter is a recursive walk over the AST that mutates a [Program]
    made of three [Memory] regions.  It is embedded with explicit state
    passing: every emitting function takes the [Compiler] state and gives
    back an [outcome], which is the new state or the way the walk stopped. *)

From Stdlib Require Import ZArith String Ascii Lia.
From Stdlib Require Import Floats.SpecFloat.
From stdpp Require Import base list strings gmap.

Local Open Scope Z_scope.

(** ** Machine integers *)

(** Conversion to an unsigned integer of [bits] bits. *)
Definition to_unsigned (bits : Z) (z : Z) : Z := z mod 2 ^ bits.

(** Conversion to a signed (two's complement) integer of [bits] bits. *)
Definition to_signed (bits : Z) (z : Z) : Z :=
  (z + 2 ^ (bits - 1)) mod 2 ^ bits - 2 ^ (bits - 1).

(** [uint32_t] and [int64_t]. *)
Definition to_uint32 : Z → Z := to_unsigned 32.
Definition to_int64 : Z → Z := to_signed 64.

(** Number of iterations of [for (T i = size - 1; i >= 0; i--)] where [T] is
    a signed integer type of [bits] bits and [size] a [size_t]: the loop
    visits the indices [i0, i0 - 1, ..., 0] with [i0] the conversion of
    [size - 1] to [T], and none when [i0] is negative. *)
Definition down_count (bits : Z) (size : nat) : nat :=
  Z.to_nat (to_signed bits (Z.of_nat size - 1) + 1).

(** ** Values *)

(** A C++ [double]: an IEEE 754 binary64 number. *)
Definition double : Type := spec_float.

(** [static_cast<double>(n)] for an integer [n]: round to nearest even. *)
Definition double_of_Z (n : Z) : double := binary_normalize 53 1024 n 0 false.

(** The integer that a [double] holds, when it holds one: a finite binary64
    number of sign [s], mantissa [m] and exponent [e] is [(-1)^s * m * 2^e]. *)
Definition integer_of_double (d : double) : option Z :=
  match d with
  | S754_zero _ => Some 0
  | S754_finite s m e =>
      let v := if s then Zneg m else Zpos m in
      if 0 <=? e then Some (v * 2 ^ e)
      else if v mod 2 ^ (- e) =? 0 then Some (v / 2 ^ (- e)) else None
  | _ => None
  end.

(** Modelled from the spec: the [Type] class of the runtime ([Type(name)] builds
    a type descriptor from the declared type name); its header is not part of
    the sources. *)
Record Type_ : Type := { type_name : string }.

(** Modelled from the spec: the [Value] class, a tagged sum over integer
    (int64), float (double), string, boolean, none and type descriptor, with
    one constructor per C++ constructor overload; its header is not part of
    the sources. *)
Inductive Value : Type :=
  | VInt (i : Z)
  | VFloat (d : double)
  | VString (s : string)
  | VBool (b : bool)
  | VNone
  | VType (t : Type_).

Definition is_int (v : Value) : bool := match v with VInt _ => true | _ => false end.
Definition is_float (v : Value) : bool := match v with VFloat _ => true | _ => false end.

(** ** Opcodes *)

(** The opcodes the emitter uses (the [OpCode] enumeration is declared in a
    header that is not part of the sources). *)
Inductive OpCode : Type :=
  | OP_PUSH | OP_POP
  | OP_ADD | OP_SUB | OP_MUL | OP_DIV
  | OP_MINUS | OP_NOT
  | OP_EQ | OP_NEQ | OP_LT | OP_LTE | OP_HT | OP_HTE
  | OP_DECLARE | OP_STORE | OP_ONLY_STORE | OP_LOAD
  | OP_ACCESS | OP_STORE_ACCESS
  | OP_LIST | OP_DICTIONARY
  | OP_PRINT
  | OP_BRANCH_FALSE | OP_RJUMP
  | OP_CALL | OP_RETURN | OP_FUNCTION
  | OP_EXIT.

(** The numeric value of each opcode: the [OpCode] enumeration, whose header
    is not part of the sources.  The emitter is parametric in it. *)
Class OpCodes : Type := opcode_value : OpCode → Z.

(** Modelled from the spec: a numbering of the [OpCode] enumeration, in the
    order of the specification's opcode table (the header that declares the
    enumeration is not part of the sources), to run the emitter on concrete
    inputs. *)
Definition table_order : OpCodes := λ o,
  match o with
  | OP_PUSH => 0 | OP_POP => 1
  | OP_ADD => 2 | OP_SUB => 3 | OP_MUL => 4 | OP_DIV => 5
  | OP_MINUS => 6 | OP_NOT => 7
  | OP_EQ => 8 | OP_NEQ => 9 | OP_LT => 10 | OP_LTE => 11 | OP_HT => 12 | OP_HTE => 13
  | OP_DECLARE => 14 | OP_STORE => 15 | OP_ONLY_STORE => 16 | OP_LOAD => 17
  | OP_ACCESS => 18 | OP_STORE_ACCESS => 19
  | OP_LIST => 20 | OP_DICTIONARY => 21
  | OP_PRINT => 22
  | OP_BRANCH_FALSE => 23 | OP_RJUMP => 24
  | OP_CALL => 25 | OP_RETURN => 26 | OP_FUNCTION => 27
  | OP_EXIT => 28
  end.

(** ** Tokens *)

(** The token types, in the order of [Token::token_names]. *)
Inductive TokenType : Type :=
  | TOKEN_NEW_LINE | TOKEN_LEFT_PAREN | TOKEN_RIGHT_PAREN | TOKEN_LEFT_BRACE
  | TOKEN_RIGHT_BRACE | TOKEN_COMMA | TOKEN_DOT | TOKEN_MINUS | TOKEN_PLUS
  | TOKEN_SLASH | TOKEN_STAR | TOKEN_RIGHT_ARROW | TOKEN_LEFT_ARROW
  | TOKEN_BANG | TOKEN_BANG_EQUAL | TOKEN_EQUAL | TOKEN_EQUAL_EQUAL
  | TOKEN_HIGHER | TOKEN_HIGHER_EQUAL | TOKEN_LOWER | TOKEN_LOWER_EQUAL
  | TOKEN_IDENTIFIER | TOKEN_STRING | TOKEN_INTEGER | TOKEN_FLOAT | TOKEN_OR
  | TOKEN_AND | TOKEN_CLASS | TOKEN_ELSE | TOKEN_TRUE | TOKEN_FALSE
  | TOKEN_WHILE | TOKEN_FOR | TOKEN_IF | TOKEN_NONE | TOKEN_SELF | TOKEN_EOF
  | TOKEN_PERCENT | TOKEN_LEFT_SQUARE | TOKEN_RIGHT_SQUARE
  | TOKEN_BIG_RIGHT_ARROW | TOKEN_COLON | TOKEN_RETURN | TOKEN_PRINT.

(** The fields of a [Token] that the emitter reads. *)
Record Token : Type := { type : TokenType; line : Z }.

(** The operator tokens that [Compiler::compile(Token, bool)] has a case for. *)
Definition recognized_operators : list TokenType :=
  [TOKEN_PLUS; TOKEN_MINUS; TOKEN_STAR; TOKEN_SLASH; TOKEN_BANG; TOKEN_EQUAL;
   TOKEN_EQUAL_EQUAL; TOKEN_BANG_EQUAL; TOKEN_LOWER; TOKEN_LOWER_EQUAL;
   TOKEN_HIGHER; TOKEN_HIGHER_EQUAL].

Definition is_operator (t : TokenType) : bool :=
  match t with
  | TOKEN_PLUS | TOKEN_MINUS | TOKEN_STAR | TOKEN_SLASH | TOKEN_BANG
  | TOKEN_EQUAL | TOKEN_EQUAL_EQUAL | TOKEN_BANG_EQUAL | TOKEN_LOWER
  | TOKEN_LOWER_EQUAL | TOKEN_HIGHER | TOKEN_HIGHER_EQUAL => true
  | _ => false
  end.

(** ** The abstract syntax tree *)

(** The rule tags that the emitter mentions (the [Rule] enumeration is
    declared in a header that is not part of the sources). *)
Inductive Rule : Type :=
  | RULE_EXPRESSION | RULE_STATEMENT
  | RULE_PRINT | RULE_EXPRESSION_STATEMENT | RULE_DECLARATION | RULE_RETURN
  | RULE_IF | RULE_WHILE
  | RULE_INTEGER | RULE_FLOAT | RULE_STRING | RULE_BOOLEAN | RULE_LIST
  | RULE_DICTIONARY | RULE_NONE | RULE_GROUP | RULE_UNARY | RULE_BINARY
  | RULE_VARIABLE | RULE_ASSIGN | RULE_ASSIGN_ACCESS | RULE_LOGICAL
  | RULE_FUNCTION | RULE_CALL | RULE_ACCESS.

(** Modelled from the spec: the node classes of the parser (their header is not
    part of the sources), one constructor per class with the fields the emitter
    reads; the first field is always the node's source line.  A node built by
    one of the classes carries the rule tag of its class.  [Expression_] and
    [Statement_] are nodes of the base classes alone, with the rule tag they
    were built with.  A [Dictionary] holds its entries ([value], an
    [unordered_map] given by its association list) and the order of its keys
    ([key_order]).  The return type of a [Function_] is taken to be a string,
    as the declared type of a [Declaration] is.  Child pointers are not null,
    but for the initializer of a declaration, which the emitter tests.  The
    constructors whose class name is taken in Rocq have a trailing
    underscore. *)
#[local] Unset Elimination Schemes.
Inductive Expression : Type :=
  | Integer (line : Z) (value : Z)
  | Float (line : Z) (value : double)
  | String_ (line : Z) (value : string)
  | Boolean (line : Z) (value : bool)
  | List_ (line : Z) (value : list Expression)
  | Dictionary (line : Z) (value : list (string * Expression)) (key_order : list string)
  | None_ (line : Z)
  | Group (line : Z) (expression : Expression)
  | Unary (line : Z) (op : Token) (right : Expression)
  | Binary (line : Z) (left : Expression) (op : Token) (right : Expression)
  | Variable_ (line : Z) (name : string)
  | Assign (line : Z) (name : string) (value : Expression)
  | AssignAccess (line : Z) (name : string) (index : Expression) (value : Expression)
  | Logical (line : Z) (left : Expression) (op : Token) (right : Expression)
  | Function_ (line : Z) (arguments : list Statement) (return_type : string)
      (body : list Statement)
  | Call (line : Z) (callee : string) (arguments : list Expression)
  | Access (line : Z) (name : string) (index : Expression)
  | Expression_ (rule : Rule) (line : Z)
with Statement : Type :=
  | Print (line : Z) (expression : Expression)
  | ExpressionStatement (line : Z) (expression : Expression)
  | Declaration (line : Z) (name : string) (type : string)
      (initializer : option Expression)
  | Return (line : Z) (value : Expression)
  | If (line : Z) (condition : Expression) (thenBranch : list Statement)
      (elseBranch : list Statement)
  | While (line : Z) (condition : Expression) (body : list Statement)
  | Statement_ (rule : Rule) (line : Z).
#[local] Set Elimination Schemes.

(** [rule->line]. *)
Definition Expression_line (rule : Expression) : Z :=
  match rule with
  | Integer l _ | Float l _ | String_ l _ | Boolean l _ | List_ l _
  | Dictionary l _ _ | None_ l | Group l _ | Unary l _ _ | Binary l _ _ _
  | Variable_ l _ | Assign l _ _ | AssignAccess l _ _ _ | Logical l _ _ _
  | Function_ l _ _ _ | Call l _ _ | Access l _ _ | Expression_ _ l => l
  end.

Definition Statement_line (rule : Statement) : Z :=
  match rule with
  | Print l _ | ExpressionStatement l _ | Declaration l _ _ _ | Return l _
  | If l _ _ _ | While l _ _ | Statement_ _ l => l
  end.

(** [static_cast<Declaration *>(s)->name]: the name of a declaration node;
    the cast of any other node is not defined. *)
Definition Declaration_name (s : Statement) : option string :=
  match s with
  | Declaration _ name _ _ => Some name
  | _ => None
  end.

(** ** Program and compiler state *)

(** Modelled from the spec: a memory region, with the three vectors the
    emitter appends to (the class is declared in a header that is not part of
    the sources).  A code slot is a [uint64_t]. *)
Record Memory : Type := {
  code : list Z;
  constants : list Value;
  lines : list Z
}.

(** Modelled from the spec: the three regions of a program. *)
Record Program : Type := {
  program : Memory;
  functions : Memory;
  classes : Memory
}.

(** The selector of the active region.  The emitter names [FUNCTIONS_MEMORY]
    and [CLASSES_MEMORY] and takes any other value for the program region. *)
Inductive MemoryType : Type := PROGRAM_MEMORY | FUNCTIONS_MEMORY | CLASSES_MEMORY.

#[global] Instance MemoryType_eq_dec : EqDecision MemoryType.
Proof. solve_decision. Defined.

(** The members of [Compiler] that the emitter uses: [program],
    [current_memory] and [current_line]. *)
Record Compiler : Type := {
  compiler_program : Program;
  current_memory : MemoryType;
  current_line : Z
}.

Definition empty_memory : Memory := {| code := []; constants := []; lines := [] |}.

(** Modelled from the spec: a compiler as constructed, with three empty
    regions and the program region selected (the constructor is not part of
    the sources). *)
Definition new_compiler : Compiler :=
  {| compiler_program :=
       {| program := empty_memory; functions := empty_memory; classes := empty_memory |};
     current_memory := PROGRAM_MEMORY;
     current_line := 0 |}.

(** The region of a program that a selector names. *)
Definition region (r : MemoryType) (p : Program) : Memory :=
  match r with
  | FUNCTIONS_MEMORY => functions p
  | CLASSES_MEMORY => classes p
  | PROGRAM_MEMORY => program p
  end.

Definition set_region (r : MemoryType) (m : Memory) (p : Program) : Program :=
  match r with
  | FUNCTIONS_MEMORY => {| program := program p; functions := m; classes := classes p |}
  | CLASSES_MEMORY => {| program := program p; functions := functions p; classes := m |}
  | PROGRAM_MEMORY => {| program := m; functions := functions p; classes := classes p |}
  end.

(** [Compiler::get_current_memory]: the region the selector names. *)
Definition get_current_memory (c : Compiler) : Memory :=
  region (current_memory c) (compiler_program c).

(** A write through the pointer that [get_current_memory] returns. *)
Definition set_current_memory (m : Memory) (c : Compiler) : Compiler :=
  {| compiler_program := set_region (current_memory c) m (compiler_program c);
     current_memory := current_memory c;
     current_line := current_line c |}.

(** [this->current_memory = r]. *)
Definition select_memory (r : MemoryType) (c : Compiler) : Compiler :=
  {| compiler_program := compiler_program c;
     current_memory := r;
     current_line := current_line c |}.

(** [this->current_line = l]. *)
Definition set_current_line (l : Z) (c : Compiler) : Compiler :=
  {| compiler_program := compiler_program c;
     current_memory := current_memory c;
     current_line := l |}.

(** ** Outcomes *)

(** The four diagnostics that precede [exit(EXIT_FAILURE)]. *)
Inductive Error : Type :=
  | InvalidRule
  | InvalidStatement (line : Z)
  | InvalidExpression (line : Z)
  | UnknownOperation (line : Z).

(** How an emitting function ends: it returns ([Done]), it stops the process
    with [exit(EXIT_FAILURE)] after a diagnostic ([Exit]), it throws
    [std::out_of_range] from [unordered_map::at] ([OutOfRange]), or it does
    something C++ gives no meaning to ([Undefined]: a write past the end of a
    vector through [operator[]], a [static_cast] to a class the node is not
    of). *)
Inductive outcome (A : Type) : Type :=
  | Done (a : A)
  | Exit (e : Error)
  | OutOfRange
  | Undefined.

Arguments Done {A} a.
Arguments Exit {A} e.
Arguments OutOfRange {A}.
Arguments Undefined {A}.

#[global] Instance outcome_ret : MRet outcome := @Done.
#[global] Instance outcome_bind : MBind outcome := λ A B f m,
  match m with
  | Done a => f a
  | Exit e => Exit e
  | OutOfRange => OutOfRange
  | Undefined => Undefined
  end.

(** [for (auto x : l) f(x)]. *)
Definition foreach {A : Type} (f : A → Compiler → outcome Compiler) :
    list A → Compiler → outcome Compiler :=
  fix go l c :=
    match l with
    | [] => Done c
    | x :: t => c1 ← f x c; go t c1
    end.

(** [for (i = n - 1; i >= 0; i--) f(l[i])], for [n] at most the length of
    [l]: the first [n] elements, last first. *)
Definition foreach_down {A : Type} (f : A → Compiler → outcome Compiler) :
    nat → list A → Compiler → outcome Compiler :=
  λ n l,
    (fix go l n c {struct l} :=
       match l, n with
       | x :: t, S n' => c1 ← go t n' c; f x c1
       | _, _ => Done c
       end) l n.

(** [f(m.at(key))] for an [unordered_map] given by its association list:
    [at] throws [std::out_of_range] when the key has no entry. *)
Definition at_ {A : Type} (f : A → Compiler → outcome Compiler) (key : string) :
    list (string * A) → Compiler → outcome Compiler :=
  fix go m c :=
    match m with
    | [] => OutOfRange
    | (k, e) :: t => if String.eqb k key then f e c else go t c
    end.

(** ** Where the walk stops *)

(** The ways of not returning. *)
Inductive stop : Type :=
  | Fatal (e : Error)
  | Thrown
  | Unspecified.

Definition stop_of {A : Type} (o : outcome A) : option stop :=
  match o with
  | Done _ => None
  | Exit e => Some (Fatal e)
  | OutOfRange => Some Thrown
  | Undefined => Some Unspecified
  end.

(** The first of two stops, in the order of the walk. *)
Definition or_else (a b : option stop) : option stop :=
  match a with
  | Some s => Some s
  | None => b
  end.

Definition first_stop {A : Type} (f : A → option stop) : list A → option stop :=
  fix go l :=
    match l with
    | [] => None
    | x :: t => or_else (f x) (go t)
    end.

Definition first_stop_down {A : Type} (f : A → option stop) :
    nat → list A → option stop :=
  λ n l,
    (fix go l n {struct l} :=
       match l, n with
       | x :: t, S n' => or_else (go t n') (f x)
       | _, _ => None
       end) l n.

Definition at_stop {A : Type} (f : A → option stop) (key : string) :
    list (string * A) → option stop :=
  fix go m :=
    match m with
    | [] => Some Thrown
    | (k, e) :: t => if String.eqb k key then f e else go t
    end.

Definition token_stop (op : Token) : option stop :=
  if is_operator (type op) then None else Some (Fatal (UnknownOperation (line op))).

Definition argument_stop (argument : Statement) : option stop :=
  match Declaration_name argument with
  | Some _ => None
  | None => Some Unspecified
  end.

(** The first node, in the order of the walk, at which the emitter stops: a
    function of the tree alone.  The branches of an [If] that has an else
    branch are not walked. *)
Fixpoint expression_stop (rule : Expression) : option stop :=
  match rule with
  | Integer _ _ | Float _ _ | String_ _ _ | Boolean _ _ | None_ _ | Variable_ _ _ => None
  | List_ _ value =>
      first_stop_down expression_stop (down_count 32 (length value)) value
  | Dictionary _ value key_order =>
      first_stop_down (λ key, at_stop expression_stop key value)
        (down_count 32 (length key_order)) key_order
  | Group _ expression => expression_stop expression
  | Unary _ op right_ => or_else (expression_stop right_) (token_stop op)
  | Binary _ left_ op right_ | Logical _ left_ op right_ =>
      or_else (expression_stop left_) (or_else (expression_stop right_) (token_stop op))
  | Assign _ _ value => expression_stop value
  | AssignAccess _ _ index value =>
      or_else (expression_stop value) (expression_stop index)
  | Function_ _ arguments _ body =>
      or_else (first_stop statement_stop arguments)
        (or_else
           (first_stop_down argument_stop (down_count 16 (length arguments)) arguments)
           (first_stop statement_stop body))
  | Call _ _ arguments => first_stop expression_stop arguments
  | Access _ _ index => expression_stop index
  | Expression_ rule line =>
      match rule with
      | RULE_EXPRESSION | RULE_STATEMENT | RULE_PRINT | RULE_EXPRESSION_STATEMENT
      | RULE_DECLARATION | RULE_RETURN | RULE_IF | RULE_WHILE =>
          Some (Fatal (InvalidExpression line))
      | RULE_NONE => None
      | _ => Some Unspecified
      end
  end
with statement_stop (rule : Statement) : option stop :=
  match rule with
  | Print _ expression | ExpressionStatement _ expression | Return _ expression =>
      expression_stop expression
  | Declaration _ _ _ initializer =>
      match initializer with
      | Some initializer => expression_stop initializer
      | None => None
      end
  | If _ condition thenBranch elseBranch =>
      match elseBranch with
      | [] => or_else (expression_stop condition) (first_stop statement_stop thenBranch)
      | _ :: _ => None
      end
  | While _ condition body =>
      or_else (expression_stop condition) (first_stop statement_stop body)
  | Statement_ rule line =>
      match rule with
      | RULE_EXPRESSION | RULE_STATEMENT => Some (Fatal InvalidRule)
      | RULE_PRINT | RULE_EXPRESSION_STATEMENT | RULE_DECLARATION | RULE_RETURN
      | RULE_IF | RULE_WHILE => Some Unspecified
      | _ => Some (Fatal (InvalidStatement line))
      end
  end.

(** The three structural situations of the failure model, anywhere in a
    tree: a node of the base classes alone (an unrecognized kind or a bare
    placeholder) and an operator token outside [recognized_operators]. *)
Fixpoint expression_sound (rule : Expression) : bool :=
  match rule with
  | Integer _ _ | Float _ _ | String_ _ _ | Boolean _ _ | None_ _ | Variable_ _ _ => true
  | List_ _ value | Call _ _ value => forallb expression_sound value
  | Dictionary _ value _ => forallb (λ kv, expression_sound kv.2) value
  | Group _ e | Assign _ _ e | Access _ _ e => expression_sound e
  | Unary _ op right_ => is_operator (type op) && expression_sound right_
  | Binary _ left_ op right_ | Logical _ left_ op right_ =>
      is_operator (type op) && expression_sound left_ && expression_sound right_
  | AssignAccess _ _ index value => expression_sound index && expression_sound value
  | Function_ _ arguments _ body =>
      forallb statement_sound arguments && forallb statement_sound body
  | Expression_ _ _ => false
  end
with statement_sound (rule : Statement) : bool :=
  match rule with
  | Print _ e | ExpressionStatement _ e | Return _ e => expression_sound e
  | Declaration _ _ _ initializer =>
      match initializer with
      | Some e => expression_sound e
      | None => true
      end
  | If _ condition thenBranch elseBranch =>
      expression_sound condition && forallb statement_sound thenBranch
      && forallb statement_sound elseBranch
  | While _ condition body => expression_sound condition && forallb statement_sound body
  | Statement_ _ _ => false
  end.

(** ** The emitter *)

Section Emitter.

Context {opcodes : OpCodes}.

(** [Compiler::add_opcode]. *)
Definition add_opcode (opcode : OpCode) (c : Compiler) : Compiler :=
  let m := get_current_memory c in
  set_current_memory
    {| code := code m ++ [opcode_value opcode];
       constants := constants m;
       lines := lines m ++ [current_line c] |} c.

(** [Compiler::add_constant_only]: the new state and the returned index. *)
Definition add_constant_only (value : Value) (c : Compiler) : Compiler * Z :=
  let m := get_current_memory c in
  let constants' := constants m ++ [value] in
  let index := Z.of_nat (length constants') - 1 in
  (set_current_memory
     {| code := code m ++ [index]; constants := constants'; lines := lines m |} c,
   index).

(** [Compiler::add_constant]. *)
Definition add_constant (value : Value) (c : Compiler) : Compiler :=
  (add_constant_only value (add_opcode OP_PUSH c)).1.

(** [Compiler::modify_constant]: [constants[index] = value], an unchecked
    write, which has a meaning only for an index below the size. *)
Definition modify_constant (index : Z) (value : Value) (c : Compiler) : outcome Compiler :=
  let m := get_current_memory c in
  if bool_decide (0 ≤ index < Z.of_nat (length (constants m))) then
    Done (set_current_memory
            {| code := code m;
               constants := <[Z.to_nat index := value]> (constants m);
               lines := lines m |} c)
  else Undefined.

(** [Compiler::current_code_line]: the size of the code stream, as a
    [uint32_t]. *)
Definition current_code_line (c : Compiler) : Z :=
  to_uint32 (Z.of_nat (length (code (get_current_memory c)))).

(** [Compiler::compile(Token op, bool unary)].  The callers that pass no
    [unary] get the default of the declaration, which is not part of the
    sources; it is false, a binary [-] being a subtraction. *)
Definition compile_token (op : Token) (unary : bool) (c : Compiler) : outcome Compiler :=
  let c := set_current_line (line op) c in
  match type op with
  | TOKEN_PLUS => Done (add_opcode OP_ADD c)
  | TOKEN_MINUS => Done (if unary then add_opcode OP_MINUS c else add_opcode OP_SUB c)
  | TOKEN_STAR => Done (add_opcode OP_MUL c)
  | TOKEN_SLASH => Done (add_opcode OP_DIV c)
  | TOKEN_BANG => Done (add_opcode OP_NOT c)
  | TOKEN_EQUAL => Done (add_opcode OP_STORE c)
  | TOKEN_EQUAL_EQUAL => Done (add_opcode OP_EQ c)
  | TOKEN_BANG_EQUAL => Done (add_opcode OP_NEQ c)
  | TOKEN_LOWER => Done (add_opcode OP_LT c)
  | TOKEN_LOWER_EQUAL => Done (add_opcode OP_LTE c)
  | TOKEN_HIGHER => Done (add_opcode OP_HT c)
  | TOKEN_HIGHER_EQUAL => Done (add_opcode OP_HTE c)
  | _ => Exit (UnknownOperation (line op))
  end.

(** The binding of one parameter of a function literal:
    [add_opcode(OP_ONLY_STORE)] and the name of the declaration. *)
Definition bind_argument (argument : Statement) (c : Compiler) : outcome Compiler :=
  match Declaration_name argument with
  | Some name => Done (add_constant_only (VString name) (add_opcode OP_ONLY_STORE c)).1
  | None => Undefined
  end.

(** [Compiler::compile] on an [Expression] and on a [Statement].
    The offsets of [RULE_WHILE] and the start address of [RULE_FUNCTION] pass
    through a [double] in the source; the values are integers below [2^32]
    in magnitude, on which [double] arithmetic is exact.  A name, a
    declared type and a return type become constants through the
    conversions [Value(std::string)] and [Value(Type)].  A node of a base
    class alone takes the case of its rule tag: a case that casts the node
    to a derived class and reads its fields has no defined emission on it,
    the case of [RULE_NONE] reads no field and emits the none constant, and
    a tag of the other switch takes the default case. *)
Fixpoint compile_expression (rule : Expression) (c : Compiler) {struct rule} :
    outcome Compiler :=
  let c := set_current_line (Expression_line rule) c in
  match rule with
  | Integer _ value => Done (add_constant (VInt value) c)
  | Float _ value => Done (add_constant (VFloat value) c)
  | String_ _ value => Done (add_constant (VString value) c)
  | Boolean _ value => Done (add_constant (VBool value) c)
  | List_ _ value =>
      c ← foreach_down compile_expression (down_count 32 (length value)) value c;
      let c := add_opcode OP_LIST c in
      Done (add_constant_only (VFloat (double_of_Z (Z.of_nat (length value)))) c).1
  | Dictionary _ value key_order =>
      c ← foreach_down
            (λ key c, at_ compile_expression key value (add_constant (VString key) c))
            (down_count 32 (length key_order)) key_order c;
      let c := add_opcode OP_DICTIONARY c in
      Done (add_constant_only (VFloat (double_of_Z (Z.of_nat (length value)))) c).1
  | None_ _ => Done (add_constant VNone c)
  | Group _ expression => compile_expression expression c
  | Unary _ op right_ =>
      c ← compile_expression right_ c;
      compile_token op true c
  | Binary _ left_ op right_ =>
      c ← compile_expression left_ c;
      c ← compile_expression right_ c;
      compile_token op false c
  | Variable_ _ name =>
      Done (add_constant_only (VString name) (add_opcode OP_LOAD c)).1
  | Assign _ name value =>
      c ← compile_expression value c;
      Done (add_constant_only (VString name) (add_opcode OP_STORE c)).1
  | AssignAccess _ name index value =>
      c ← compile_expression value c;
      c ← compile_expression index c;
      Done (add_constant_only (VString name) (add_opcode OP_STORE_ACCESS c)).1
  | Logical _ left_ op right_ =>
      c ← compile_expression left_ c;
      c ← compile_expression right_ c;
      compile_token op false c
  | Function_ _ arguments return_type body =>
      let memory := current_memory c in
      let c := select_memory FUNCTIONS_MEMORY c in
      let index := current_code_line c in
      c ← foreach compile_statement arguments c;
      c ← foreach_down bind_argument (down_count 16 (length arguments)) arguments c;
      c ← foreach compile_statement body c;
      let c := add_constant VNone c in
      let c := add_opcode OP_RETURN c in
      let c := select_memory memory c in
      let c := add_opcode OP_FUNCTION c in
      let c := (add_constant_only (VInt (to_int64 index)) c).1 in
      Done (add_constant_only (VString return_type) c).1
  | Call _ callee arguments =>
      c ← foreach compile_expression arguments c;
      let c := add_opcode OP_CALL c in
      let c := (add_constant_only (VString callee) c).1 in
      Done (add_constant_only (VInt (to_int64 (Z.of_nat (length arguments)))) c).1
  | Access _ name index =>
      c ← compile_expression index c;
      Done (add_constant_only (VString name) (add_opcode OP_ACCESS c)).1
  | Expression_ rule line =>
      match rule with
      | RULE_EXPRESSION | RULE_STATEMENT | RULE_PRINT | RULE_EXPRESSION_STATEMENT
      | RULE_DECLARATION | RULE_RETURN | RULE_IF | RULE_WHILE =>
          Exit (InvalidExpression line)
      | RULE_NONE => Done (add_constant VNone c)
      | _ => Undefined
      end
  end
with compile_statement (rule : Statement) (c : Compiler) {struct rule} :
    outcome Compiler :=
  let c := set_current_line (Statement_line rule) c in
  match rule with
  | Print _ expression =>
      c ← compile_expression expression c;
      Done (add_opcode OP_PRINT c)
  | ExpressionStatement _ expression =>
      c ← compile_expression expression c;
      Done (add_opcode OP_POP c)
  | Declaration _ name type initializer =>
      let c := add_opcode OP_DECLARE c in
      let c := (add_constant_only (VString name) c).1 in
      let c := (add_constant_only (VType {| type_name := type |}) c).1 in
      match initializer with
      | Some initializer =>
          c ← compile_expression initializer c;
          let c := add_opcode OP_STORE c in
          let c := (add_constant_only (VString name) c).1 in
          Done (add_opcode OP_POP c)
      | None => Done c
      end
  | Return _ value =>
      c ← compile_expression value c;
      Done (add_opcode OP_RETURN c)
  | If _ condition thenBranch elseBranch =>
      match elseBranch with
      | [] =>
          c ← compile_expression condition c;
          let c := add_opcode OP_BRANCH_FALSE c in
          let '(c, constant_index) := add_constant_only (VInt 0) c in
          let start_index := current_code_line c in
          c ← foreach compile_statement thenBranch c;
          modify_constant constant_index
            (VInt (to_uint32 (current_code_line c - start_index))) c
      | _ :: _ => Done c
      end
  | While _ condition body =>
      let initial_index := current_code_line c in
      c ← compile_expression condition c;
      let c := add_opcode OP_BRANCH_FALSE c in
      let '(c, constant_index) := add_constant_only (VInt 0) c in
      let start_index := current_code_line c in
      c ← foreach compile_statement body c;
      let c := add_opcode OP_RJUMP c in
      let c := (add_constant_only (VInt (- (current_code_line c - initial_index))) c).1 in
      modify_constant constant_index
        (VInt (to_uint32 (current_code_line c - start_index + 1))) c
  | Statement_ rule line =>
      match rule with
      | RULE_EXPRESSION | RULE_STATEMENT => Exit InvalidRule
      | RULE_PRINT | RULE_EXPRESSION_STATEMENT | RULE_DECLARATION | RULE_RETURN
      | RULE_IF | RULE_WHILE => Undefined
      | _ => Exit (InvalidStatement line)
      end
  end.

(** [Compiler::compile(const char *source)], from the parser's result
    [structure] on: every top-level statement, then [OP_EXIT]; the result
    is the program.  The parser is not part of the emitter. *)
Definition compile (structure : list Statement) (c : Compiler) : outcome Program :=
  c ← foreach compile_statement structure c;
  Done (compiler_program (add_opcode OP_EXIT c)).

(** The part of [RULE_FUNCTION] between the switch to the functions region and
    the default return: the argument declarations, the parameter bindings and
    the body statements (the same three loops, named to state properties of
    the case). *)
Definition compile_function_body (arguments body : list Statement) (c : Compiler) :
    outcome Compiler :=
  c ← foreach compile_statement arguments c;
  c ← foreach_down bind_argument (down_count 16 (length arguments)) arguments c;
  foreach compile_statement body c.

End Emitter.

(** ** Growth of the program *)

(** What a completed emission does to the state: the selector is the same
    afterwards, every code stream has grown at its end, no constants pool has
    shrunk, and the regions other than the active one and the functions
    region are as they were. *)
Record extends (c c' : Compiler) : Prop := {
  extends_memory : current_memory c' = current_memory c;
  extends_code : ∀ r,
    code (region r (compiler_program c)) `prefix_of` code (region r (compiler_program c'));
  extends_constants : ∀ r,
    (length (constants (region r (compiler_program c)))
     ≤ length (constants (region r (compiler_program c'))))%nat;
  extends_frame : ∀ r,
    r ≠ current_memory c → r ≠ FUNCTIONS_MEMORY →
    region r (compiler_program c') = region r (compiler_program c)
}.

(** The accounting of the three streams of every region: a code slot is
    either an opcode, which has a line, or the index of a constant, which has
    an entry in the pool. *)
Definition balanced (c : Compiler) : Prop :=
  ∀ r,
    length (code (region r (compiler_program c))) =
    (length (lines (region r (compiler_program c)))
     + length (constants (region r (compiler_program c))))%nat.

(** ** Constants and regions across an emission *)

(** No constant of the program [c] is altered in [c']: every pool of [c'] is
    the pool of [c] with entries added at its end. *)
Definition constants_kept (c c' : Compiler) : Prop :=
  ∀ r,
    constants (region r (compiler_program c))
    `prefix_of` constants (region r (compiler_program c')).

(** The state emits into the region [r] and its functions region is [m]. *)
Definition functions_are (r : MemoryType) (m : Memory) (c : Compiler) : Prop :=
  current_memory c = r ∧ functions (compiler_program c) = m.

(** Trees without a function literal. *)
Fixpoint expression_function_free (rule : Expression) : bool :=
  match rule with
  | Integer _ _ | Float _ _ | String_ _ _ | Boolean _ _ | None_ _ | Variable_ _ _
  | Expression_ _ _ => true
  | List_ _ value | Call _ _ value => forallb expression_function_free value
  | Dictionary _ value _ => forallb (λ kv, expression_function_free kv.2) value
  | Group _ e | Assign _ _ e | Access _ _ e | Unary _ _ e => expression_function_free e
  | Binary _ left_ _ right_ | Logical _ left_ _ right_ =>
      expression_function_free left_ && expression_function_free right_
  | AssignAccess _ _ index value =>
      expression_function_free index && expression_function_free value
  | Function_ _ _ _ _ => false
  end.

Fixpoint statement_function_free (rule : Statement) : bool :=
  match rule with
  | Print _ e | ExpressionStatement _ e | Return _ e => expression_function_free e
  | Declaration _ _ _ initializer =>
      match initializer with
      | Some e => expression_function_free e
      | None => true
      end
  | If _ condition thenBranch elseBranch =>
      expression_function_free condition && forallb statement_function_free thenBranch
      && forallb statement_function_free elseBranch
  | While _ condition body =>
      expression_function_free condition && forallb statement_function_free body
  | Statement_ _ _ => true
  end.

(** ** The line of the last emission *)

(** [current_line] is assigned at the entry of each of the three [compile]
    functions and nowhere else: after a walk it is the line of the node or
    of the operator token that was entered last.  [last_of f l d] is that
    line after the loop [for (auto x : l)], [d] being the line before it. *)
Definition last_of {A : Type} (f : A → Z) : list A → Z → Z :=
  fix go l d :=
    match l with
    | [] => d
    | x :: t => go t (f x)
    end.

(** After the loop that counts down from [n - 1]: the element at index 0 is
    entered last. *)
Definition last_of_down {A : Type} (f : A → Z) (n : nat) (l : list A) (d : Z) : Z :=
  match l, n with
  | x :: _, S _ => f x
  | _, _ => d
  end.

(** After [compile(m.at(key))]. *)
Definition at_line {A : Type} (f : A → Z) (key : string) (d : Z) :
    list (string * A) → Z :=
  fix go m :=
    match m with
    | [] => d
    | (k, e) :: t => if String.eqb k key then f e else go t
    end.

Fixpoint expression_last_line (rule : Expression) : Z :=
  match rule with
  | Integer l _ | Float l _ | String_ l _ | Boolean l _ | None_ l | Variable_ l _
  | Expression_ _ l => l
  | List_ l value =>
      last_of_down expression_last_line (down_count 32 (length value)) value l
  | Dictionary l value key_order =>
      last_of_down (λ key, at_line expression_last_line key l value)
        (down_count 32 (length key_order)) key_order l
  | Group _ e | Assign _ _ e | Access _ _ e => expression_last_line e
  | Unary _ op _ | Binary _ _ op _ | Logical _ _ op _ => line op
  | AssignAccess _ _ index _ => expression_last_line index
  | Function_ l arguments _ body =>
      last_of statement_last_line body (last_of statement_last_line arguments l)
  | Call l _ arguments => last_of expression_last_line arguments l
  end
with statement_last_line (rule : Statement) : Z :=
  match rule with
  | Print _ e | ExpressionStatement _ e | Return _ e => expression_last_line e
  | Declaration l _ _ initializer =>
      match initializer with
      | Some e => expression_last_line e
      | None => l
      end
  | If l condition thenBranch elseBranch =>
      match elseBranch with
      | [] => last_of statement_last_line thenBranch (expression_last_line condition)
      | _ :: _ => l
      end
  | While _ condition body =>
      last_of statement_last_line body (expression_last_line condition)
  | Statement_ _ l => l
  end.

(** ** Tokens as text *)

Definition backslash : ascii := "092"%char.

(** [Token::escaped_chars]: the character after a backslash and the character
    the pair stands for (backslash, quote, double quote, n, t, r, b, f, v and
    0). *)
Definition escaped_chars : gmap ascii ascii :=
  list_to_map
    [(backslash, backslash); ("039"%char, "039"%char); ("034"%char, "034"%char);
     ("n"%char, "010"%char); ("t"%char, "009"%char); ("r"%char, "013"%char);
     ("b"%char, "008"%char); ("f"%char, "012"%char); ("v"%char, "011"%char);
     ("0"%char, "000"%char)].

(** [Token::to_string], for a token of [length] characters whose [start]
    points at the characters [source] of the source text, a C string:
    [source] is the text from [start] to its terminating NUL, which is not in
    the list.  The loop reads [start[i]] for the indices [i] it visits below
    [length], and [start[i + 1]] after a backslash; an escaped pair gives one
    character and advances [i] by two.  A read at the index [length source]
    gives the terminator; a read past it is not defined ([None]). *)
Fixpoint to_string (source : list ascii) (length : nat) {struct source} :
    option (list ascii) :=
  match length, source with
  | O, _ => Some []
  | S n, [] =>
      match n with
      | O => Some ["000"%char]
      | S _ => None
      end
  | S n, c :: rest =>
      if Ascii.eqb c backslash then
        match rest with
        | nc :: rest' =>
            match escaped_chars !! nc with
            | Some e => (e ::.) <$> to_string rest' (pred n)
            | None => (c ::.) <$> to_string rest n
            end
        | [] => (c ::.) <$> to_string rest n
        end
      else (c ::.) <$> to_string rest n
  end.

(** ** A program of the specification's scenarios *)

(** The function literal [fn(x: int) -> int { return x + 1 }], on line 1. *)
Definition increment : Expression :=
  Function_ 1 [Declaration 1 "x" "int" None] "int"
    [Return 1 (Binary 1 (Variable_ 1 "x") {| type := TOKEN_PLUS; line := 1 |}
                 (Integer 1 1))].

(** * Properties *)

(** ** Induction over the tree *)

Section AST_induction.

Variables (P : Expression → Prop) (Q : Statement → Prop).

Hypothesis H_Integer : ∀ l v, P (Integer l v).
Hypothesis H_Float : ∀ l v, P (Float l v).
Hypothesis H_String : ∀ l v, P (String_ l v).
Hypothesis H_Boolean : ∀ l v, P (Boolean l v).
Hypothesis H_List : ∀ l value, Forall P value → P (List_ l value).
Hypothesis H_Dictionary : ∀ l value key_order,
  Forall (λ kv, P kv.2) value → P (Dictionary l value key_order).
Hypothesis H_None : ∀ l, P (None_ l).
Hypothesis H_Group : ∀ l e, P e → P (Group l e).
Hypothesis H_Unary : ∀ l op e, P e → P (Unary l op e).
Hypothesis H_Binary : ∀ l e1 op e2, P e1 → P e2 → P (Binary l e1 op e2).
Hypothesis H_Variable : ∀ l name, P (Variable_ l name).
Hypothesis H_Assign : ∀ l name e, P e → P (Assign l name e).
Hypothesis H_AssignAccess : ∀ l name e1 e2, P e1 → P e2 → P (AssignAccess l name e1 e2).
Hypothesis H_Logical : ∀ l e1 op e2, P e1 → P e2 → P (Logical l e1 op e2).
Hypothesis H_Function : ∀ l arguments return_type body,
  Forall Q arguments → Forall Q body → P (Function_ l arguments return_type body).
Hypothesis H_Call : ∀ l callee arguments, Forall P arguments → P (Call l callee arguments).
Hypothesis H_Access : ∀ l name e, P e → P (Access l name e).
Hypothesis H_Expression : ∀ rule l, P (Expression_ rule l).
Hypothesis H_Print : ∀ l e, P e → Q (Print l e).
Hypothesis H_ExpressionStatement : ∀ l e, P e → Q (ExpressionStatement l e).
Hypothesis H_Declaration : ∀ l name ty initializer,
  (∀ e, initializer = Some e → P e) → Q (Declaration l name ty initializer).
Hypothesis H_Return : ∀ l e, P e → Q (Return l e).
Hypothesis H_If : ∀ l e thenBranch elseBranch,
  P e → Forall Q thenBranch → Forall Q elseBranch → Q (If l e thenBranch elseBranch).
Hypothesis H_While : ∀ l e body, P e → Forall Q body → Q (While l e body).
Hypothesis H_Statement : ∀ rule l, Q (Statement_ rule l).

Definition Forall_all {A : Type} (R : A → Prop) (all : ∀ x, R x) : ∀ l, Forall R l :=
  fix go l :=
    match l with
    | [] => @List.Forall_nil A R
    | x :: t => @List.Forall_cons A R x t (all x) (go t)
    end.

Fixpoint Expression_ind (e : Expression) : P e :=
  match e with
  | Integer l v => H_Integer l v
  | Float l v => H_Float l v
  | String_ l v => H_String l v
  | Boolean l v => H_Boolean l v
  | List_ l value => H_List l value (Forall_all P Expression_ind value)
  | Dictionary l value key_order =>
      H_Dictionary l value key_order
        (Forall_all (λ kv, P kv.2) (λ kv, Expression_ind kv.2) value)
  | None_ l => H_None l
  | Group l e => H_Group l e (Expression_ind e)
  | Unary l op e => H_Unary l op e (Expression_ind e)
  | Binary l e1 op e2 => H_Binary l e1 op e2 (Expression_ind e1) (Expression_ind e2)
  | Variable_ l name => H_Variable l name
  | Assign l name e => H_Assign l name e (Expression_ind e)
  | AssignAccess l name e1 e2 =>
      H_AssignAccess l name e1 e2 (Expression_ind e1) (Expression_ind e2)
  | Logical l e1 op e2 => H_Logical l e1 op e2 (Expression_ind e1) (Expression_ind e2)
  | Function_ l arguments return_type body =>
      H_Function l arguments return_type body
        (Forall_all Q Statement_ind arguments) (Forall_all Q Statement_ind body)
  | Call l callee arguments =>
      H_Call l callee arguments (Forall_all P Expression_ind arguments)
  | Access l name e => H_Access l name e (Expression_ind e)
  | Expression_ rule l => H_Expression rule l
  end
with Statement_ind (s : Statement) : Q s :=
  match s with
  | Print l e => H_Print l e (Expression_ind e)
  | ExpressionStatement l e => H_ExpressionStatement l e (Expression_ind e)
  | Declaration l name ty initializer =>
      H_Declaration l name ty initializer
        (λ e (H : initializer = Some e),
           match initializer as o return o = Some e → P e with
           | Some e' => λ H, eq_ind e' P (Expression_ind e') e (Some_inj _ _ H)
           | None => λ H, False_ind _ (None_ne_Some _ H)
           end H)
  | Return l e => H_Return l e (Expression_ind e)
  | If l e thenBranch elseBranch =>
      H_If l e thenBranch elseBranch (Expression_ind e)
        (Forall_all Q Statement_ind thenBranch) (Forall_all Q Statement_ind elseBranch)
  | While l e body => H_While l e body (Expression_ind e) (Forall_all Q Statement_ind body)
  | Statement_ rule l => H_Statement rule l
  end.

Lemma AST_ind : (∀ e, P e) ∧ (∀ s, Q s).
Proof using All. split; [exact Expression_ind | exact Statement_ind]. Qed.

End AST_induction.

(** ** Machine integers *)

Lemma to_uint32_small z : 0 ≤ z < 2 ^ 32 → to_uint32 z = z.
Proof. intros H. unfold to_uint32, to_unsigned. by apply Z.mod_small. Qed.

Lemma to_uint32_range z : 0 ≤ to_uint32 z < 2 ^ 32.
Proof. unfold to_uint32, to_unsigned. by apply Z.mod_pos_bound. Qed.

Lemma to_int64_small z : - 2 ^ 63 ≤ z < 2 ^ 63 → to_int64 z = z.
Proof.
  intros H. unfold to_int64, to_signed.
  change (64 - 1) with 63. change (2 ^ 64) with (2 * 2 ^ 63).
  rewrite Z.mod_small; lia.
Qed.

Lemma to_int64_uint32 z : to_int64 (to_uint32 z) = to_uint32 z.
Proof. apply to_int64_small. pose proof (to_uint32_range z). lia. Qed.

Lemma down_count_32 (n : nat) : Z.of_nat n ≤ 2 ^ 31 → down_count 32 n = n.
Proof.
  intros H. unfold down_count, to_signed.
  change (32 - 1) with 31. change (2 ^ 32) with (2 * 2 ^ 31).
  rewrite Z.mod_small; lia.
Qed.

Lemma down_count_16 (n : nat) : Z.of_nat n ≤ 2 ^ 15 → down_count 16 n = n.
Proof.
  intros H. unfold down_count, to_signed.
  change (16 - 1) with 15. change (2 ^ 16) with (2 * 2 ^ 15).
  rewrite Z.mod_small; lia.
Qed.

(** ** Doubles *)

(** The conversion of an integer below [2^53] to a [double] is exact. *)
Lemma digits2_pos_lower p : 2 ^ (Zpos (digits2_pos p) - 1) ≤ Zpos p.
Proof.
  induction p as [p IH|p IH|]; simpl digits2_pos; [| |done].
  - rewrite Pos2Z.inj_succ. replace (Z.succ (Z.pos (digits2_pos p)) - 1)
      with (Z.succ (Z.pos (digits2_pos p) - 1)) by lia.
    rewrite Z.pow_succ_r by lia. lia.
  - rewrite Pos2Z.inj_succ. replace (Z.succ (Z.pos (digits2_pos p)) - 1)
      with (Z.succ (Z.pos (digits2_pos p) - 1)) by lia.
    rewrite Z.pow_succ_r by lia. lia.
Qed.

Lemma iter_xO_value p k : Zpos (Pos.iter xO p k) = Zpos p * 2 ^ Zpos k.
Proof.
  induction k as [|k IH] using Pos.peano_ind.
  - simpl. lia.
  - rewrite Pos.iter_succ, Pos2Z.inj_succ, Z.pow_succ_r by lia.
    rewrite Pos2Z.inj_xO, IH. lia.
Qed.

Lemma iter_xO_digits p k :
  Zpos (digits2_pos (Pos.iter xO p k)) = Zpos (digits2_pos p) + Zpos k.
Proof.
  induction k as [|k IH] using Pos.peano_ind.
  - simpl. lia.
  - rewrite Pos.iter_succ. simpl digits2_pos. rewrite !Pos2Z.inj_succ, IH. lia.
Qed.

(** A mantissa of 53 digits with an exponent in range is stored as it is. *)
Lemma binary_round_aux_canonical s m e :
  Zpos (digits2_pos m) = 53 → -1021 ≤ e ≤ 971 →
  binary_round_aux 53 1024 s (Zpos m) e loc_Exact = S754_finite s m e.
Proof.
  intros Hd He. unfold binary_round_aux, shr_fexp, fexp, emin. simpl Zdigits2.
  rewrite Hd.
  replace (Z.max (53 + e - 53) (3 - 1024 - 53) - e) with 0 by lia.
  simpl. rewrite Hd.
  replace (Z.max (53 + e - 53) (3 - 1024 - 53) - e) with 0 by lia.
  simpl. destruct (Z.leb_spec e (1024 - 53)); [done|lia].
Qed.

Lemma double_of_Z_positive p :
  Zpos p < 2 ^ 53 →
  ∃ m e, double_of_Z (Zpos p) = S754_finite false m e ∧ -52 ≤ e ≤ 0 ∧
         Zpos m = Zpos p * 2 ^ (- e).
Proof.
  intros Hp. pose proof (digits2_pos_lower p) as Hlow.
  assert (Zpos (digits2_pos p) ≤ 53) as Hd.
  { destruct (Z.le_gt_cases (Zpos (digits2_pos p)) 53) as [|Hgt]; [done|].
    assert (2 ^ 53 ≤ 2 ^ (Zpos (digits2_pos p) - 1))
      by (apply Z.pow_le_mono_r; lia). lia. }
  unfold double_of_Z, binary_normalize, binary_round, shl_align, fexp, emin.
  replace (Z.max (Z.pos (digits2_pos p) + 0 - 53) (3 - 1024 - 53) - 0)
    with (Zpos (digits2_pos p) - 53) by lia.
  replace (Z.max (Z.pos (digits2_pos p) + 0 - 53) (3 - 1024 - 53))
    with (Zpos (digits2_pos p) - 53) by lia.
  destruct (Zpos (digits2_pos p) - 53) as [|k|k] eqn:Hk; [|lia|].
  - exists p, 0. rewrite binary_round_aux_canonical by lia.
    split; [done|]. split; [lia|]. simpl. lia.
  - exists (Pos.iter xO p k), (Zneg k).
    rewrite binary_round_aux_canonical by (rewrite ?iter_xO_digits; lia).
    split; [done|]. split; [lia|]. rewrite iter_xO_value. done.
Qed.

Lemma double_of_Z_exact n :
  0 ≤ n < 2 ^ 53 → integer_of_double (double_of_Z n) = Some n.
Proof.
  intros [H0 Hn]. destruct n as [|p|p]; [done| |lia].
  destruct (double_of_Z_positive p Hn) as (m & e & -> & He & Hm).
  unfold integer_of_double. cbv zeta.
  destruct (Z.leb_spec 0 e).
  - assert (e = 0) as -> by lia. f_equal. simpl in *. lia.
  - rewrite Hm, Z.mod_mul, Z.div_mul by (apply Z.pow_nonzero; lia). done.
Qed.

(** ** Outcomes and loops *)

Lemma bind_Done {A B : Type} (m : outcome A) (f : A → outcome B) (b : B) :
  m ≫= f = Done b → ∃ a, m = Done a ∧ f a = Done b.
Proof. destruct m; try discriminate. intros H. by exists a. Qed.

Lemma Done_inj {A : Type} (a b : A) : Done a = Done b → a = b.
Proof. by intros [= ->]. Qed.

Lemma stop_of_bind {A B : Type} (m : outcome A) (f : A → outcome B) :
  stop_of (m ≫= f) =
  match m with
  | Done a => stop_of (f a)
  | _ => stop_of m
  end.
Proof. by destruct m. Qed.

Lemma stop_of_None {A : Type} (o : outcome A) : stop_of o = None → ∃ a, o = Done a.
Proof. destruct o; try discriminate. by exists a. Qed.

Lemma foreach_nil {A : Type} (f : A → Compiler → outcome Compiler) c :
  foreach f [] c = Done c.
Proof. reflexivity. Qed.

Lemma foreach_cons {A : Type} (f : A → Compiler → outcome Compiler) x t c :
  foreach f (x :: t) c = f x c ≫= foreach f t.
Proof. reflexivity. Qed.

Lemma foreach_app {A : Type} (f : A → Compiler → outcome Compiler) l1 l2 c :
  foreach f (l1 ++ l2) c = foreach f l1 c ≫= foreach f l2.
Proof.
  revert c. induction l1 as [|x t IH]; intros c; [done|].
  rewrite <- app_comm_cons, !foreach_cons.
  destruct (f x c); simpl; auto.
Qed.

Lemma foreach_down_nil {A : Type} (f : A → Compiler → outcome Compiler) n c :
  foreach_down f n [] c = Done c.
Proof. reflexivity. Qed.

Lemma foreach_down_O {A : Type} (f : A → Compiler → outcome Compiler) l c :
  foreach_down f 0 l c = Done c.
Proof. by destruct l. Qed.

Lemma foreach_down_cons {A : Type} (f : A → Compiler → outcome Compiler) n x t c :
  foreach_down f (S n) (x :: t) c = foreach_down f n t c ≫= f x.
Proof. reflexivity. Qed.

(** The loop that counts down is the loop over the reversed prefix. *)
Lemma foreach_down_rev {A : Type} (f : A → Compiler → outcome Compiler) n l c :
  foreach_down f n l c = foreach f (rev (take n l)) c.
Proof.
  revert n c. induction l as [|x t IH]; intros n c.
  - by rewrite foreach_down_nil, take_nil.
  - destruct n as [|n]; [by rewrite foreach_down_O|].
    rewrite foreach_down_cons, IH. simpl take. simpl rev.
    rewrite foreach_app. destruct (foreach f (rev (take n t)) c); simpl; try done.
    by destruct (f x a).
Qed.

Lemma first_stop_down_nil {A : Type} (f : A → option stop) n :
  first_stop_down f n [] = None.
Proof. reflexivity. Qed.

Lemma first_stop_down_O {A : Type} (f : A → option stop) l :
  first_stop_down f 0 l = None.
Proof. by destruct l. Qed.

Lemma first_stop_down_cons {A : Type} (f : A → option stop) n x t :
  first_stop_down f (S n) (x :: t) = or_else (first_stop_down f n t) (f x).
Proof. reflexivity. Qed.

(** ** Regions *)

Lemma region_set_region r m p : region r (set_region r m p) = m.
Proof. by destruct r. Qed.

Lemma region_set_region_ne r r' m p :
  r ≠ r' → region r' (set_region r m p) = region r' p.
Proof. by destruct r, r'. Qed.

Lemma get_set_current_memory m c :
  get_current_memory (set_current_memory m c) = m.
Proof. unfold get_current_memory, set_current_memory. simpl. apply region_set_region. Qed.

Lemma region_set_current_memory r m c :
  region r (compiler_program (set_current_memory m c)) =
  if decide (r = current_memory c) then m else region r (compiler_program c).
Proof.
  unfold set_current_memory. simpl. case_decide as H.
  - subst. apply region_set_region.
  - by apply region_set_region_ne.
Qed.


(** ** The emission primitives *)

Section Properties.

Context {opcodes : OpCodes}.

Lemma add_opcode_memory opcode c :
  get_current_memory (add_opcode opcode c) =
  {| code := code (get_current_memory c) ++ [opcode_value opcode];
     constants := constants (get_current_memory c);
     lines := lines (get_current_memory c) ++ [current_line c] |}.
Proof. apply get_set_current_memory. Qed.

Lemma add_constant_only_memory value c :
  get_current_memory (add_constant_only value c).1 =
  {| code := code (get_current_memory c)
             ++ [Z.of_nat (length (constants (get_current_memory c)))];
     constants := constants (get_current_memory c) ++ [value];
     lines := lines (get_current_memory c) |}.
Proof.
  unfold add_constant_only. simpl. rewrite get_set_current_memory.
  rewrite length_app. simpl. do 3 f_equal. lia.
Qed.

Lemma add_constant_only_index value c :
  (add_constant_only value c).2 = Z.of_nat (length (constants (get_current_memory c))).
Proof. unfold add_constant_only. simpl. rewrite length_app. simpl. lia. Qed.

Lemma add_constant_only_pair value c :
  add_constant_only value c =
  ((add_constant_only value c).1, Z.of_nat (length (constants (get_current_memory c)))).
Proof. rewrite <- (add_constant_only_index value c). by destruct (add_constant_only value c). Qed.

Lemma add_constant_memory value c :
  get_current_memory (add_constant value c) =
  {| code := code (get_current_memory c)
             ++ [opcode_value OP_PUSH; Z.of_nat (length (constants (get_current_memory c)))];
     constants := constants (get_current_memory c) ++ [value];
     lines := lines (get_current_memory c) ++ [current_line c] |}.
Proof.
  unfold add_constant. rewrite add_constant_only_memory, add_opcode_memory. simpl.
  by rewrite <- app_assoc.
Qed.

Lemma add_opcode_current_memory opcode c :
  current_memory (add_opcode opcode c) = current_memory c.
Proof. reflexivity. Qed.

Lemma add_constant_only_current_memory value c :
  current_memory (add_constant_only value c).1 = current_memory c.
Proof. reflexivity. Qed.

Lemma add_constant_current_memory value c :
  current_memory (add_constant value c) = current_memory c.
Proof. reflexivity. Qed.

Lemma modify_constant_Done index value c c' :
  modify_constant index value c = Done c' →
  0 ≤ index < Z.of_nat (length (constants (get_current_memory c))) ∧
  c' = set_current_memory
         {| code := code (get_current_memory c);
            constants := <[Z.to_nat index := value]> (constants (get_current_memory c));
            lines := lines (get_current_memory c) |} c.
Proof.
  unfold modify_constant. case_bool_decide; [|discriminate].
  intros [= <-]. done.
Qed.

Lemma modify_constant_in_range index value c :
  0 ≤ index < Z.of_nat (length (constants (get_current_memory c))) →
  modify_constant index value c =
  Done (set_current_memory
          {| code := code (get_current_memory c);
             constants := <[Z.to_nat index := value]> (constants (get_current_memory c));
             lines := lines (get_current_memory c) |} c).
Proof. intros H. unfold modify_constant. by rewrite bool_decide_eq_true_2. Qed.

(** ** Completed emissions extend the program *)

Lemma extends_refl c : extends c c.
Proof. by split. Qed.

Lemma extends_trans c1 c2 c3 : extends c1 c2 → extends c2 c3 → extends c1 c3.
Proof.
  intros [M1 C1 K1 F1] [M2 C2 K2 F2]. split.
  - congruence.
  - intros r. etrans; [apply C1 | apply C2].
  - intros r. etrans; [apply K1 | apply K2].
  - intros r H1 H2. rewrite F2, F1; congruence.
Qed.

Lemma extends_set_current_line l c : extends c (set_current_line l c).
Proof. by split. Qed.

(** A write to the active region that appends to its code and keeps the
    size of its pool extends the program. *)
Lemma extends_set_current_memory m c :
  code (get_current_memory c) `prefix_of` code m →
  (length (constants (get_current_memory c)) ≤ length (constants m))%nat →
  extends c (set_current_memory m c).
Proof.
  intros Hc Hk. split.
  - done.
  - intros r. rewrite region_set_current_memory. case_decide; by subst.
  - intros r. rewrite region_set_current_memory. case_decide; by subst.
  - intros r H1 H2. rewrite region_set_current_memory. by case_decide.
Qed.

Lemma extends_add_opcode opcode c : extends c (add_opcode opcode c).
Proof. apply extends_set_current_memory; simpl; [by apply prefix_app_r | done]. Qed.

Lemma extends_add_constant_only value c : extends c (add_constant_only value c).1.
Proof.
  apply extends_set_current_memory; simpl; [by apply prefix_app_r |].
  rewrite length_app. lia.
Qed.

Lemma extends_add_constant value c : extends c (add_constant value c).
Proof.
  eapply extends_trans; [apply extends_add_opcode | apply extends_add_constant_only].
Qed.

Lemma extends_modify_constant index value c c' :
  modify_constant index value c = Done c' → extends c c'.
Proof.
  intros [_ ->]%modify_constant_Done.
  apply extends_set_current_memory; simpl; [done|]. by rewrite length_insert.
Qed.

Lemma extends_compile_token op unary c c' :
  compile_token op unary c = Done c' → extends c c'.
Proof.
  unfold compile_token. intros H.
  apply extends_trans with (set_current_line (line op) c);
    [apply extends_set_current_line|].
  destruct (type op), unary; try discriminate; injection H as <-;
    apply extends_add_opcode.
Qed.

Lemma extends_bind_argument argument c c' :
  bind_argument argument c = Done c' → extends c c'.
Proof.
  unfold bind_argument. destruct (Declaration_name argument); [|discriminate].
  intros [= <-].
  eapply extends_trans; [apply extends_add_opcode | apply extends_add_constant_only].
Qed.

Lemma extends_foreach {A : Type} (f : A → Compiler → outcome Compiler) l :
  Forall (λ x, ∀ c c', f x c = Done c' → extends c c') l →
  ∀ c c', foreach f l c = Done c' → extends c c'.
Proof.
  induction 1 as [|x t Hx _ IH]; intros c c'.
  - intros [= <-]. apply extends_refl.
  - rewrite foreach_cons. intros (c1 & H1 & H2)%bind_Done.
    eapply extends_trans; eauto.
Qed.

Lemma extends_foreach_down {A : Type} (f : A → Compiler → outcome Compiler) n l :
  Forall (λ x, ∀ c c', f x c = Done c' → extends c c') l →
  ∀ c c', foreach_down f n l c = Done c' → extends c c'.
Proof.
  intros H c c'. rewrite foreach_down_rev. apply extends_foreach.
  apply Forall_rev, Forall_take, H.
Qed.

Lemma extends_at {A : Type} (f : A → Compiler → outcome Compiler) key m :
  Forall (λ kv, ∀ c c', f kv.2 c = Done c' → extends c c') m →
  ∀ c c', at_ f key m c = Done c' → extends c c'.
Proof.
  induction 1 as [|[k e] t Hx _ IH]; intros c c'; simpl; [discriminate|].
  destruct (String.eqb k key); eauto.
Qed.

Arguments add_opcode : simpl never.
Arguments add_constant_only : simpl never.
Arguments add_constant : simpl never.
Arguments modify_constant : simpl never.
Arguments current_code_line : simpl never.
Arguments compile_token : simpl never.
Arguments bind_argument : simpl never.
Arguments set_current_line : simpl never.
Arguments select_memory : simpl never.
Arguments foreach : simpl never.
Arguments foreach_down : simpl never.
Arguments at_ : simpl never.

(** Inverts a completed sequence of emissions, step by step. *)
Ltac inv_Done H :=
  repeat match type of H with
  | _ ≫= _ = Done _ =>
      let c := fresh "c" in
      let H1 := fresh "Hc" in
      apply bind_Done in H as (c & H1 & H)
  | (let '(_, _) := add_constant_only ?v ?c in _) = Done _ =>
      rewrite (add_constant_only_pair v c) in H
  end.

(** Closes a goal [extends c c'] along the chain of emissions behind it. *)
Ltac extends_chain :=
  repeat first
    [ apply extends_refl
    | eassumption
    | match goal with
      | |- extends _ (add_opcode _ _) =>
          eapply extends_trans; [|apply extends_add_opcode]
      | |- extends _ (add_constant_only _ _).1 =>
          eapply extends_trans; [|apply extends_add_constant_only]
      | |- extends _ (add_constant _ _) =>
          eapply extends_trans; [|apply extends_add_constant]
      | |- extends _ (set_current_line _ _) =>
          eapply extends_trans; [|apply extends_set_current_line]
      | H : modify_constant _ _ ?c1 = Done ?c2 |- extends _ ?c2 =>
          eapply extends_trans; [|apply (extends_modify_constant _ _ _ _ H)]
      | H : compile_token _ _ ?c1 = Done ?c2 |- extends _ ?c2 =>
          eapply extends_trans; [|apply (extends_compile_token _ _ _ _ H)]
      | H : ?f ?c1 = Done ?c2, IH : ∀ c c', ?f c = Done c' → extends c c'
        |- extends _ ?c2 =>
          eapply extends_trans; [|apply (IH _ _ H)]
      | H : foreach ?f ?l ?c1 = Done ?c2, IH : Forall _ ?l |- extends _ ?c2 =>
          eapply extends_trans; [|apply (extends_foreach f l IH _ _ H)]
      | H : foreach_down ?f ?n ?l ?c1 = Done ?c2, IH : Forall _ ?l |- extends _ ?c2 =>
          eapply extends_trans; [|apply (extends_foreach_down f n l IH _ _ H)]
      end ].

Lemma extends_select_memory c cb :
  extends (select_memory FUNCTIONS_MEMORY c) cb →
  extends c (select_memory (current_memory c) cb).
Proof.
  intros [M C K F]. split.
  - done.
  - intros r. apply C.
  - intros r. apply K.
  - intros r H1 H2. by apply F.
Qed.

Lemma compile_extends :
  (∀ e c c', compile_expression e c = Done c' → extends c c') ∧
  (∀ s c c', compile_statement s c = Done c' → extends c c').
Proof.
  apply AST_ind; intros;
    match goal with H : _ = Done _ |- _ =>
      cbn [compile_expression compile_statement Expression_line Statement_line] in H;
      inv_Done H
    end.
  all: try match goal with H : Done _ = Done _ |- _ => apply Done_inj in H; subst end.
  all: try solve [extends_chain].
  - (* Dictionary *)
    extends_chain.
    eapply extends_trans; [apply (extends_set_current_line l)|].
    eapply extends_foreach_down; [|eassumption].
    apply Forall_true. intros key c1 c2 Hat.
    eapply extends_trans; [apply extends_add_constant|].
    exact (extends_at compile_expression key value H _ _ Hat).
  - (* Function_ *)
    extends_chain.
    eapply extends_trans; [apply (extends_set_current_line l)|].
    apply (extends_select_memory (set_current_line l c)).
    extends_chain.
    eapply extends_trans;
      [|eapply (extends_foreach_down bind_argument); [|eassumption]].
    + extends_chain.
    + apply Forall_true. intros a. apply extends_bind_argument.
  - (* Expression_ *)
    destruct rule; try discriminate.
    match goal with H : Done _ = Done _ |- _ => apply Done_inj in H; subst end.
    extends_chain.
  - (* Declaration *)
    destruct initializer as [e|].
    + inv_Done H0. apply Done_inj in H0. subst. 
      specialize (H e eq_refl). extends_chain.
    + apply Done_inj in H0. subst. extends_chain.
  - (* If *)
    destruct elseBranch.
    + inv_Done H2. extends_chain.
    + apply Done_inj in H2. subst. extends_chain.
  - (* Statement_ *)
    destruct rule; discriminate.
Qed.

Lemma compile_expression_extends e c c' :
  compile_expression e c = Done c' → extends c c'.
Proof. apply compile_extends. Qed.

Lemma compile_statement_extends s c c' :
  compile_statement s c = Done c' → extends c c'.
Proof. apply compile_extends. Qed.

Lemma compile_statements_extends l c c' :
  foreach compile_statement l c = Done c' → extends c c'.
Proof.
  apply extends_foreach, Forall_true. intros s. apply compile_statement_extends.
Qed.

(** What [extends] says about the active region. *)
Lemma extends_current c c' :
  extends c c' →
  ∃ emitted,
    code (get_current_memory c') = code (get_current_memory c) ++ emitted ∧
    (length (constants (get_current_memory c))
     ≤ length (constants (get_current_memory c')))%nat.
Proof.
  intros [M C K _]. unfold get_current_memory. rewrite M.
  destruct (C (current_memory c)) as [emitted ->]. eauto.
Qed.

Lemma set_current_line_memory l c :
  get_current_memory (set_current_line l c) = get_current_memory c.
Proof. reflexivity. Qed.

Lemma set_current_line_current_memory l c :
  current_memory (set_current_line l c) = current_memory c.
Proof. reflexivity. Qed.

Lemma set_current_line_program l c :
  compiler_program (set_current_line l c) = compiler_program c.
Proof. reflexivity. Qed.

Lemma select_memory_current_memory r c : current_memory (select_memory r c) = r.
Proof. reflexivity. Qed.

Lemma select_memory_program r c :
  compiler_program (select_memory r c) = compiler_program c.
Proof. reflexivity. Qed.

Lemma select_memory_memory r c :
  get_current_memory (select_memory r c) = region r (compiler_program c).
Proof. reflexivity. Qed.

Lemma add_opcode_region opcode c r :
  r ≠ current_memory c →
  region r (compiler_program (add_opcode opcode c)) = region r (compiler_program c).
Proof.
  intros Hr. unfold add_opcode. rewrite region_set_current_memory. by case_decide.
Qed.

Lemma add_constant_only_region value c r :
  r ≠ current_memory c →
  region r (compiler_program (add_constant_only value c).1) = region r (compiler_program c).
Proof.
  intros Hr. unfold add_constant_only. cbv beta zeta. unfold fst.
  rewrite region_set_current_memory. by case_decide.
Qed.

Lemma add_constant_region value c r :
  r ≠ current_memory c →
  region r (compiler_program (add_constant value c)) = region r (compiler_program c).
Proof.
  intros Hr. unfold add_constant.
  rewrite add_constant_only_region by done. by apply add_opcode_region.
Qed.

Lemma add_constant_unfold value c :
  add_constant value c = (add_constant_only value (add_opcode OP_PUSH c)).1.
Proof. reflexivity. Qed.

Lemma compile_token_unfold op unary c :
  compile_token op unary c = Exit (UnknownOperation (line op)) ∨
  ∃ opcode, compile_token op unary c
            = Done (add_opcode opcode (set_current_line (line op) c)).
Proof. unfold compile_token. destruct (type op), unary; eauto. Qed.

Lemma bind_argument_unfold argument c :
  bind_argument argument c = Undefined ∨
  ∃ name, bind_argument argument c
          = Done (add_constant_only (VString name) (add_opcode OP_ONLY_STORE c)).1.
Proof. unfold bind_argument. destruct (Declaration_name argument); eauto. Qed.

Lemma region_of_current c r :
  current_memory c = r → region r (compiler_program c) = get_current_memory c.
Proof. by intros <-. Qed.

Lemma region_current c :
  region (current_memory c) (compiler_program c) = get_current_memory c.
Proof. reflexivity. Qed.

#[local] Opaque add_opcode add_constant_only add_constant modify_constant
  set_current_line select_memory compile_token bind_argument.

(** ** The shape of the emitted statements *)

Lemma If_shape l condition thenBranch c c' :
  compile_statement (If l condition thenBranch []) c = Done c' →
  ∃ c1 c3,
    compile_expression condition (set_current_line l c) = Done c1 ∧
    let c2 := (add_constant_only (VInt 0) (add_opcode OP_BRANCH_FALSE c1)).1 in
    let placeholder := length (constants (get_current_memory c1)) in
    foreach compile_statement thenBranch c2 = Done c3 ∧
    (placeholder < length (constants (get_current_memory c3)))%nat ∧
    c' = set_current_memory
           {| code := code (get_current_memory c3);
              constants :=
                <[placeholder :=
                    VInt (to_uint32 (current_code_line c3 - current_code_line c2))]>
                  (constants (get_current_memory c3));
              lines := lines (get_current_memory c3) |} c3.
Proof.
  intros H. cbn [compile_statement Statement_line] in H. inv_Done H.
  apply modify_constant_Done in H as [Hrange ->].
  exists c0, c1. split; [done|]. simpl. split; [done|].
  rewrite add_opcode_memory in *. simpl in *. rewrite Nat2Z.id.
  split; [lia | done].
Qed.

Lemma While_shape l condition body c c' :
  compile_statement (While l condition body) c = Done c' →
  ∃ c1 c3,
    compile_expression condition (set_current_line l c) = Done c1 ∧
    let c2 := (add_constant_only (VInt 0) (add_opcode OP_BRANCH_FALSE c1)).1 in
    let placeholder := length (constants (get_current_memory c1)) in
    let c4 := add_opcode OP_RJUMP c3 in
    let back :=
      VInt (- (current_code_line c4 - current_code_line (set_current_line l c))) in
    let c5 := (add_constant_only back c4).1 in
    foreach compile_statement body c2 = Done c3 ∧
    (placeholder < length (constants (get_current_memory c3)))%nat ∧
    c' = set_current_memory
           {| code := code (get_current_memory c5);
              constants :=
                <[placeholder :=
                    VInt (to_uint32 (current_code_line c5 - current_code_line c2 + 1))]>
                  (constants (get_current_memory c5));
              lines := lines (get_current_memory c5) |} c5.
Proof.
  intros H. cbn [compile_statement Statement_line] in H. inv_Done H.
  pose proof (compile_statements_extends _ _ _ Hc0) as (? & _ & Hk)%extends_current.
  apply modify_constant_Done in H as [Hrange ->].
  exists c0, c1. split; [done|]. simpl. split; [done|].
  rewrite add_constant_only_memory, add_opcode_memory in Hk. simpl in Hk.
  rewrite length_app in Hk. simpl in Hk.
  rewrite (add_opcode_memory OP_BRANCH_FALSE c0). simpl.
  rewrite Nat2Z.id. split; [lia | done].
Qed.

(** The code length of the active region, when it fits a [uint32_t]. *)
Lemma current_code_line_small c :
  Z.of_nat (length (code (get_current_memory c))) < 2 ^ 32 →
  current_code_line c = Z.of_nat (length (code (get_current_memory c))).
Proof. intros H. unfold current_code_line. apply to_uint32_small. lia. Qed.

(** ** If without an else branch *)

(** C4: for every if statement with an empty else branch, the back-patched
    BRANCH_FALSE placeholder constant is the number of code slots emitted
    from the slot immediately after the offset operand to the end of the
    then-branch, that is the final code length minus the code length right
    after the placeholder was emitted (code lengths being read as
    [uint32_t], the code stream is taken to be shorter than [2^32]). *)
Theorem if_offset_counts_then_branch l condition thenBranch c c' :
  compile_statement (If l condition thenBranch []) c = Done c' →
  Z.of_nat (length (code (get_current_memory c'))) < 2 ^ 32 →
  ∃ c1 c3 then_code,
    compile_expression condition (set_current_line l c) = Done c1 ∧
    let placeholder := length (constants (get_current_memory c1)) in
    let after_operand := (length (code (get_current_memory c1)) + 2)%nat in
    foreach compile_statement thenBranch
      (add_constant_only (VInt 0) (add_opcode OP_BRANCH_FALSE c1)).1 = Done c3 ∧
    code (get_current_memory c3) = code (get_current_memory c') ∧
    code (get_current_memory c') =
      code (get_current_memory c1)
      ++ [opcode_value OP_BRANCH_FALSE; Z.of_nat placeholder] ++ then_code ∧
    constants (get_current_memory c') !! placeholder
      = Some (VInt (Z.of_nat (length then_code))) ∧
    Z.of_nat (length then_code)
      = Z.of_nat (length (code (get_current_memory c'))) - Z.of_nat after_operand.
Proof.
  intros (c1 & c3 & Hcond & Hthen & Hlt & ->)%If_shape Hsmall.
  cbv zeta in *.
  rewrite get_set_current_memory in *. simpl in *.
  pose proof (compile_statements_extends _ _ _ Hthen) as (then_code & Hcode & _)%extends_current.
  rewrite add_constant_only_memory, add_opcode_memory in Hcode. simpl in Hcode.
  rewrite <- !app_assoc in Hcode. simpl in Hcode.
  exists c1, c3, then_code. split; [done|]. split; [done|]. split; [done|].
  split; [done|].
  assert (Z.of_nat (length then_code)
          = Z.of_nat (length (code (get_current_memory c3)))
            - Z.of_nat (length (code (get_current_memory c1)) + 2)) as Hlen.
  { rewrite Hcode, !length_app. simpl. lia. }
  split; [|done].
  rewrite list_lookup_insert_eq by done. do 2 f_equal.
  rewrite (current_code_line_small c3) by done.
  rewrite current_code_line_small.
  - rewrite add_constant_only_memory, add_opcode_memory. simpl.
    rewrite !length_app. simpl. rewrite to_uint32_small; lia.
  - rewrite add_constant_only_memory, add_opcode_memory. simpl.
    rewrite !length_app. simpl. lia.
Qed.

(** C5: an if statement whose else branch is not empty emits nothing: the
    compilation returns, and the three regions (code, constants and lines of
    each) and the selector are as they were; not even the condition is
    emitted. *)
Theorem if_with_else_emits_nothing l condition thenBranch elseBranch c :
  elseBranch ≠ [] →
  ∃ c',
    compile_statement (If l condition thenBranch elseBranch) c = Done c' ∧
    compiler_program c' = compiler_program c ∧
    current_memory c' = current_memory c.
Proof.
  intros Helse. destruct elseBranch as [|s rest]; [done|].
  by exists (set_current_line l c).
Qed.

(** ** While *)

(** C3, as the emitter has it: for every while statement, the constant
    emitted as the RJUMP operand is the negation of the distance from the
    loop head to the slot of the RJUMP operand itself (the code length taken
    after the RJUMP opcode and before its operand, minus the code length
    recorded at the loop head): the distance counts the RJUMP opcode and not
    its operand, and the offset added to the position of the operand slot
    gives the loop head (the code stream being shorter than [2^32]). *)
Theorem while_rjump_offset l condition body c c' :
  compile_statement (While l condition body) c = Done c' →
  Z.of_nat (length (code (get_current_memory c'))) < 2 ^ 32 →
  ∃ inner k,
    let loop_head := Z.of_nat (length (code (get_current_memory c))) in
    let operand_slot := Z.of_nat (length (code (get_current_memory c'))) - 1 in
    code (get_current_memory c') =
      code (get_current_memory c) ++ inner ++ [opcode_value OP_RJUMP; Z.of_nat k] ∧
    constants (get_current_memory c') !! k = Some (VInt (- (operand_slot - loop_head))) ∧
    operand_slot - loop_head = Z.of_nat (length inner) + 1.
Proof.
  intros (c1 & c3 & Hcond & Hbody & Hlt & ->)%While_shape Hsmall.
  cbv zeta in *.
  rewrite get_set_current_memory in *. simpl in *.
  rewrite add_constant_only_memory, add_opcode_memory in *. simpl in *.
  pose proof (compile_expression_extends _ _ _ Hcond) as (code1 & Hcode1 & _)%extends_current.
  pose proof (compile_statements_extends _ _ _ Hbody) as (code3 & Hcode3 & _)%extends_current.
  rewrite add_constant_only_memory, add_opcode_memory in Hcode3. simpl in Hcode3.
  rewrite set_current_line_memory in Hcode1.
  exists (code1 ++ [opcode_value OP_BRANCH_FALSE;
                    Z.of_nat (length (constants (get_current_memory c1)))] ++ code3),
         (length (constants (get_current_memory c3))).
  assert (code (get_current_memory c3) =
          code (get_current_memory c) ++ code1
          ++ [opcode_value OP_BRANCH_FALSE;
              Z.of_nat (length (constants (get_current_memory c1)))] ++ code3) as Hc3.
  { rewrite Hcode3, Hcode1. by rewrite <- !app_assoc. }
  rewrite !length_app in Hsmall. simpl in Hsmall.
  split; [|split].
  - rewrite Hc3. by rewrite <- !app_assoc.
  - rewrite list_lookup_insert_ne by lia.
    rewrite lookup_app_r by done. rewrite Nat.sub_diag. simpl. do 2 f_equal.
    rewrite current_code_line_small.
    + rewrite add_opcode_memory. simpl. unfold current_code_line.
      rewrite set_current_line_memory.
      rewrite to_uint32_small.
      * rewrite !length_app. simpl. lia.
      * rewrite Hc3, !length_app in Hsmall. lia.
    + rewrite add_opcode_memory. simpl. rewrite !length_app. simpl. lia.
  - rewrite Hc3, !length_app. simpl. rewrite ?length_app. simpl. lia.
Qed.

(** ** Function literals *)

Lemma Function_shape l arguments return_type body c c' :
  compile_expression (Function_ l arguments return_type body) c = Done c' →
  ∃ cb,
    let c0 := select_memory FUNCTIONS_MEMORY (set_current_line l c) in
    compile_function_body arguments body c0 = Done cb ∧
    extends c0 cb ∧
    c' = (add_constant_only (VString return_type)
            (add_constant_only (VInt (current_code_line c0))
               (add_opcode OP_FUNCTION
                  (select_memory (current_memory c)
                     (add_opcode OP_RETURN (add_constant VNone cb))))).1).1.
Proof.
  intros H. cbn [compile_expression Expression_line] in H. inv_Done H.
  apply Done_inj in H. subst c'.
  rewrite set_current_line_current_memory.
  unfold current_code_line at 1. rewrite to_int64_uint32.
  exists c2. cbv zeta. split; [|split; [|done]].
  - unfold compile_function_body. rewrite Hc. simpl. rewrite Hc0. done.
  - eapply extends_trans; [eapply compile_statements_extends, Hc|].
    eapply extends_trans; [|eapply compile_statements_extends, Hc1].
    eapply (extends_foreach_down bind_argument); [|exact Hc0].
    apply Forall_true. intros a. apply extends_bind_argument.
Qed.

(** C6: for every function literal, after the argument declarations, the
    parameter bindings and the body statements are emitted into the functions
    region, the trailer PUSH, index of a none constant, RETURN is appended to
    the functions region, whatever the body contains; the body of the
    compiled function ends with it.  What follows the trailer in the functions
    region is the FUNCTION opcode of the literal with its two operands when the
    literal itself stands in the functions region (a literal inside a function
    body), and nothing otherwise. *)
Theorem function_body_ends_with_trailer l arguments return_type body c c' :
  compile_expression (Function_ l arguments return_type body) c = Done c' →
  ∃ cb,
    let c0 := select_memory FUNCTIONS_MEMORY (set_current_line l c) in
    let k := length (constants (functions (compiler_program cb))) in
    let tail :=
      if decide (current_memory c = FUNCTIONS_MEMORY)
      then [opcode_value OP_FUNCTION; Z.of_nat (k + 1); Z.of_nat (k + 2)]
      else [] in
    compile_function_body arguments body c0 = Done cb ∧
    current_memory cb = FUNCTIONS_MEMORY ∧
    code (functions (compiler_program c')) =
      code (functions (compiler_program cb))
      ++ [opcode_value OP_PUSH; Z.of_nat k; opcode_value OP_RETURN] ++ tail ∧
    constants (functions (compiler_program c')) !! k = Some VNone.
Proof.
  intros (cb & Hchain & Hext & ->)%Function_shape.
  exists cb. cbv zeta. split; [done|].
  pose proof (extends_memory _ _ Hext) as Hm.
  rewrite select_memory_current_memory in Hm. split; [done|].
  set (cT := add_opcode OP_RETURN (add_constant VNone cb)).
  assert (current_memory cT = FUNCTIONS_MEMORY) as HmT by done.
  assert (functions (compiler_program cT) =
          {| code := code (functions (compiler_program cb))
                     ++ [opcode_value OP_PUSH;
                         Z.of_nat (length (constants (functions (compiler_program cb))));
                         opcode_value OP_RETURN];
             constants := constants (functions (compiler_program cb)) ++ [VNone];
             lines := lines (functions (compiler_program cb))
                      ++ [current_line cb; current_line (add_constant VNone cb)] |}) as HT.
  { change (functions (compiler_program cT)) with (region FUNCTIONS_MEMORY (compiler_program cT)).
    rewrite <- HmT, region_current. unfold cT.
    rewrite add_opcode_memory, add_constant_memory.
    unfold get_current_memory. rewrite Hm. simpl. by rewrite <- !app_assoc. }
  change (functions ?p) with (region FUNCTIONS_MEMORY p).
  case_decide as Hr.
  - rewrite Hr.
    rewrite !(region_of_current _ FUNCTIONS_MEMORY) by done.
    rewrite !add_constant_only_memory, add_opcode_memory, select_memory_memory.
    change (region FUNCTIONS_MEMORY ?p) with (functions p). rewrite HT. simpl.
    unfold get_current_memory. rewrite Hm. simpl.
    split.
    + rewrite <- !app_assoc. simpl. by rewrite !length_app.
    + rewrite <- !app_assoc. rewrite lookup_app_r by done.
      by rewrite Nat.sub_diag.
  - rewrite !add_constant_only_region, add_opcode_region by done.
    rewrite select_memory_program.
    change (region FUNCTIONS_MEMORY ?p) with (functions p). rewrite HT. simpl.
    split; [done|].
    rewrite lookup_app_r by done. by rewrite Nat.sub_diag.
Qed.

(** C7: compiling a function literal saves the selector on entry, emits the
    argument declarations, the parameter bindings, the body and the trailer
    with the functions region selected (so the other two regions are untouched
    by them), and restores the saved selector before it emits the FUNCTION
    opcode: the selector after the literal is the selector before it, and
    FUNCTION with its two operands, the start address in the functions region
    and the return type, is appended to the region that was active at the
    literal, and to that region alone. *)
Theorem function_restores_selector l arguments return_type body c c' :
  compile_expression (Function_ l arguments return_type body) c = Done c' →
  current_memory c' = current_memory c ∧
  ∃ cb,
    let c0 := select_memory FUNCTIONS_MEMORY (set_current_line l c) in
    let trailer := add_opcode OP_RETURN (add_constant VNone cb) in
    let before := region (current_memory c) (compiler_program trailer) in
    let i := length (constants before) in
    compile_function_body arguments body c0 = Done cb ∧
    current_memory cb = FUNCTIONS_MEMORY ∧
    current_memory trailer = FUNCTIONS_MEMORY ∧
    (∀ r, r ≠ FUNCTIONS_MEMORY →
          region r (compiler_program trailer) = region r (compiler_program c)) ∧
    code (get_current_memory c') =
      code before ++ [opcode_value OP_FUNCTION; Z.of_nat i; Z.of_nat (i + 1)] ∧
    constants (get_current_memory c') =
      constants before ++ [VInt (current_code_line c0); VString return_type] ∧
    (∀ r, r ≠ current_memory c →
          region r (compiler_program c') = region r (compiler_program trailer)).
Proof.
  intros (cb & Hchain & Hext & ->)%Function_shape.
  rewrite !add_constant_only_current_memory, add_opcode_current_memory,
    select_memory_current_memory.
  split; [done|]. exists cb. cbv zeta. split; [done|].
  pose proof (extends_memory _ _ Hext) as Hm.
  rewrite select_memory_current_memory in Hm.
  split; [done|].
  split; [by rewrite add_opcode_current_memory, add_constant_current_memory|].
  split; [|split; [|split]].
  - intros r Hr.
    rewrite add_opcode_region, add_constant_region
      by (by rewrite ?add_constant_current_memory, Hm).
    rewrite (extends_frame _ _ Hext) by done.
    by rewrite select_memory_program, set_current_line_program.
  - rewrite !add_constant_only_memory, add_opcode_memory, select_memory_memory.
    simpl. rewrite <- !app_assoc. simpl. rewrite length_app. simpl. done.
  - rewrite !add_constant_only_memory, add_opcode_memory, select_memory_memory.
    simpl. by rewrite <- !app_assoc.
  - intros r Hr.
    rewrite !add_constant_only_region, add_opcode_region, select_memory_program;
      by rewrite ?add_constant_only_current_memory, ?add_opcode_current_memory,
           ?select_memory_current_memory.
Qed.

(** ** Lists *)

Lemma List_shape l value c c' :
  compile_expression (List_ l value) c = Done c' →
  ∃ c1,
    foreach_down compile_expression (down_count 32 (length value)) value
      (set_current_line l c) = Done c1 ∧
    c' = (add_constant_only (VFloat (double_of_Z (Z.of_nat (length value))))
            (add_opcode OP_LIST c1)).1.
Proof.
  intros H. cbn [compile_expression Expression_line] in H. inv_Done H.
  apply Done_inj in H. eauto.
Qed.

(** C8: for every list expression of n elements (n within the range of the
    [int] that counts them down), the element expressions are emitted in
    reverse order, the last element first and the first element last, then
    the LIST opcode, then the index of a new constant that holds the element
    count: the double whose value is exactly n (a list of three elements
    stores 3.0); the count is stored in the pool as a float (double), whereas the
    offset constants of branches and jumps (the patched BRANCH_FALSE offset of
    an if and of a while, and the RJUMP offset of a while) are stored as
    integers (int64). *)
Theorem list_reversed_count_is_float :
  (∀ l value c c',
     Z.of_nat (length value) < 2 ^ 31 →
     compile_expression (List_ l value) c = Done c' →
     ∃ c1 count,
       foreach compile_expression (rev value) (set_current_line l c) = Done c1 ∧
       code (get_current_memory c') =
         code (get_current_memory c1)
         ++ [opcode_value OP_LIST; Z.of_nat (length (constants (get_current_memory c1)))] ∧
       constants (get_current_memory c') = constants (get_current_memory c1) ++ [count] ∧
       count = VFloat (double_of_Z (Z.of_nat (length value))) ∧
       is_float count = true ∧ is_int count = false ∧
       ∃ d, count = VFloat d ∧
            integer_of_double d = Some (Z.of_nat (length value))) ∧
  (∀ l condition thenBranch c c',
     compile_statement (If l condition thenBranch []) c = Done c' →
     ∃ c1 offset,
       compile_expression condition (set_current_line l c) = Done c1 ∧
       constants (get_current_memory c') !! length (constants (get_current_memory c1))
         = Some offset ∧
       is_int offset = true ∧ is_float offset = false) ∧
  (∀ l condition body c c',
     compile_statement (While l condition body) c = Done c' →
     ∃ c1 offset back,
       compile_expression condition (set_current_line l c) = Done c1 ∧
       constants (get_current_memory c') !! length (constants (get_current_memory c1))
         = Some offset ∧
       last (constants (get_current_memory c')) = Some back ∧
       is_int offset = true ∧ is_float offset = false ∧
       is_int back = true ∧ is_float back = false).
Proof.
  split; [|split].
  - intros l value c c' Hn (c1 & Hloop & ->)%List_shape.
    rewrite foreach_down_rev, down_count_32, firstn_all in Hloop by lia.
    exists c1, (VFloat (double_of_Z (Z.of_nat (length value)))).
    rewrite add_constant_only_memory, add_opcode_memory. simpl.
    rewrite <- app_assoc. do 6 (split; [done|]).
    eexists. split; [done|]. apply double_of_Z_exact. lia.
  - intros l' condition thenBranch d d' (d1 & d3 & Hcond & Hthen & Hlt & ->)%If_shape.
    cbv zeta in *. eexists d1, _. split; [done|].
    rewrite get_set_current_memory. simpl.
    by rewrite list_lookup_insert_eq.
  - intros l' condition body d d' (d1 & d3 & Hcond & Hbody & Hlt & ->)%While_shape.
    cbv zeta in *. eexists d1, _, _. split; [done|].
    rewrite get_set_current_memory. simpl.
    rewrite add_constant_only_memory, add_opcode_memory. simpl.
    split; [|split].
    + apply list_lookup_insert_eq. rewrite length_app. simpl. lia.
    + rewrite last_lookup, length_insert, length_app. simpl.
      rewrite list_lookup_insert_ne by lia.
      rewrite lookup_app_r by lia.
      replace (Init.Nat.pred (length (constants (get_current_memory d3)) + 1)
               - length (constants (get_current_memory d3)))%nat with 0%nat by lia.
      done.
    + done.
Qed.

(** ** Where the walk stops *)

Lemma stop_of_compile_token op unary c :
  stop_of (compile_token op unary c) = token_stop op.
Proof.
  Local Transparent compile_token.
  unfold compile_token, token_stop. by destruct (type op), unary.
  Local Opaque compile_token.
Qed.

Lemma stop_of_bind_argument argument c :
  stop_of (bind_argument argument c) = argument_stop argument.
Proof.
  Local Transparent bind_argument.
  unfold bind_argument, argument_stop. by destruct (Declaration_name argument).
  Local Opaque bind_argument.
Qed.

Lemma stop_of_foreach {A : Type} (f : A → Compiler → outcome Compiler) g l :
  Forall (λ x, ∀ c, stop_of (f x c) = g x) l →
  ∀ c, stop_of (foreach f l c) = first_stop g l.
Proof.
  induction 1 as [|x t Hx _ IH]; intros c; [done|].
  rewrite foreach_cons, stop_of_bind. simpl. rewrite <- (Hx c).
  destruct (f x c); simpl; auto.
Qed.

Lemma stop_of_foreach_down {A : Type} (f : A → Compiler → outcome Compiler) g n l :
  Forall (λ x, ∀ c, stop_of (f x c) = g x) l →
  ∀ c, stop_of (foreach_down f n l c) = first_stop_down g n l.
Proof.
  intros H. revert n. induction H as [|x t Hx _ IH]; intros n c.
  - by rewrite foreach_down_nil.
  - destruct n as [|n]; [by rewrite foreach_down_O, first_stop_down_O|].
    rewrite foreach_down_cons, first_stop_down_cons, stop_of_bind.
    rewrite <- (IH n c).
    destruct (foreach_down f n t c); simpl; auto.
Qed.

Lemma stop_of_at {A : Type} (f : A → Compiler → outcome Compiler) g key m :
  Forall (λ kv, ∀ c, stop_of (f kv.2 c) = g kv.2) m →
  ∀ c, stop_of (at_ f key m c) = at_stop g key m.
Proof.
  induction 1 as [|[k e] t Hx _ IH]; intros c; [done|].
  change (at_ f key ((k, e) :: t) c)
    with (if String.eqb k key then f e c else at_ f key t c).
  simpl. destruct (String.eqb k key); [apply Hx | apply IH].
Qed.

(** A back-patch of a placeholder that a completed emission lies after is
    within the pool. *)
Lemma modify_constant_after value c1 c3 :
  let c2 := (add_constant_only (VInt 0) (add_opcode OP_BRANCH_FALSE c1)).1 in
  extends c2 c3 →
  ∃ c', modify_constant (Z.of_nat (length (constants (get_current_memory
                           (add_opcode OP_BRANCH_FALSE c1))))) value c3 = Done c'.
Proof.
  intros c2 (emitted & _ & Hk)%extends_current.
  unfold c2 in Hk. rewrite add_constant_only_memory in Hk. simpl in Hk.
  rewrite length_app in Hk. simpl in Hk.
  rewrite modify_constant_in_range by lia. eauto.
Qed.

(** Peels one emission off a sequence, on both sides of a [stop_of]
    equation. *)
Ltac stop_step :=
  match goal with
  | |- ?x = ?x => reflexivity
  | |- stop_of (Done _) = None => reflexivity
  | |- stop_of (compile_token _ _ _) = _ => apply stop_of_compile_token
  | IH : ∀ c, stop_of (?f c) = ?g |- context [stop_of (?f ?c0 ≫= _)] =>
      rewrite (stop_of_bind (f c0)), <- (IH c0);
      destruct (f c0); simpl; [|reflexivity..]
  | IH : Forall _ ?l |- context [stop_of (foreach ?f ?l ?c0 ≫= _)] =>
      rewrite (stop_of_bind (foreach f l c0)), <- (stop_of_foreach f _ l IH c0);
      destruct (foreach f l c0); simpl; [|reflexivity..]
  | IH : Forall _ ?l |- stop_of (foreach ?f ?l ?c0) = _ =>
      apply (stop_of_foreach f _ l IH c0)
  | IH : ∀ c, stop_of (?f c) = ?g |- stop_of (?f ?c0) = ?g => apply IH
  end.

Lemma compile_stops :
  (∀ e c, stop_of (compile_expression e c) = expression_stop e) ∧
  (∀ s c, stop_of (compile_statement s c) = statement_stop s).
Proof.
  apply AST_ind; intros;
    cbn [compile_expression compile_statement expression_stop statement_stop
         Expression_line Statement_line].
  all: try solve [repeat stop_step].
  - (* List_ *)
    rewrite stop_of_bind, <- (stop_of_foreach_down _ _ _ _ H (set_current_line l c)).
    by destruct (foreach_down _ _ _ _).
  - (* Dictionary *)
    assert (Forall (λ key, ∀ c,
              stop_of (at_ compile_expression key value (add_constant (VString key) c))
              = at_stop expression_stop key value) key_order) as Hkeys.
    { apply Forall_true. intros key c1. by apply stop_of_at. }
    rewrite stop_of_bind, <- (stop_of_foreach_down _ _ _ _ Hkeys (set_current_line l c)).
    by destruct (foreach_down _ _ _ _).
  - (* Function_ *)
    stop_step.
    assert (Forall (λ x, ∀ c, stop_of (bind_argument x c) = argument_stop x) arguments)
      as Hbind.
    { apply Forall_true. intros x c1. apply stop_of_bind_argument. }
    match goal with |- context [foreach_down bind_argument ?n _ ?c1] =>
      rewrite stop_of_bind, <- (stop_of_foreach_down _ _ n _ Hbind c1);
      destruct (foreach_down bind_argument n arguments c1); simpl; [|reflexivity..]
    end.
    repeat stop_step.
  - (* Expression_ *)
    by destruct rule.
  - (* Declaration *)
    destruct initializer as [e|]; [|done].
    specialize (H e eq_refl). repeat stop_step.
  - (* If *)
    destruct elseBranch; [|done].
    stop_step. rewrite add_constant_only_pair. cbv beta iota zeta.
    match goal with |- context [foreach compile_statement ?b ?c2 ≫= _] =>
      rewrite (stop_of_bind (foreach compile_statement b c2)),
        <- (stop_of_foreach _ _ _ H0 c2);
      destruct (foreach compile_statement b c2) as [c3| | |] eqn:Hthen;
      simpl; [|reflexivity..]
    end.
    apply compile_statements_extends in Hthen.
    match goal with |- stop_of (modify_constant _ ?v _) = _ =>
      by destruct (modify_constant_after v _ _ Hthen) as [c' ->]
    end.
  - (* While *)
    stop_step. rewrite add_constant_only_pair. cbv beta iota zeta.
    match goal with |- context [foreach compile_statement ?b ?c2 ≫= _] =>
      rewrite (stop_of_bind (foreach compile_statement b c2)),
        <- (stop_of_foreach _ _ _ H0 c2);
      destruct (foreach compile_statement b c2) as [c3| | |] eqn:Hbody;
      simpl; [|reflexivity..]
    end.
    apply compile_statements_extends in Hbody.
    match type of Hbody with extends (add_constant_only _ (add_opcode _ ?c1)).1 _ =>
      match goal with |- stop_of (modify_constant _ ?v ?c5) = _ =>
        destruct (modify_constant_after v c1 c5) as [c' ->]; [|done]
      end
    end.
    eapply extends_trans; [exact Hbody|].
    eapply extends_trans; [apply extends_add_opcode | apply extends_add_constant_only].
  - (* Statement_ *)
    by destruct rule.
Qed.

(** A tree with none of the three structural situations never stops the walk
    with a fatal exit. *)

Lemma or_else_fatal a b err :
  or_else a b = Some (Fatal err) → a = Some (Fatal err) ∨ b = Some (Fatal err).
Proof. destruct a; simpl; auto. Qed.

Lemma first_stop_not_fatal {A : Type} (sound : A → bool) (g : A → option stop) l :
  Forall (λ x, sound x = true → ∀ err, g x ≠ Some (Fatal err)) l →
  forallb sound l = true → ∀ err, first_stop g l ≠ Some (Fatal err).
Proof.
  induction 1 as [|x t Hx _ IH]; intros Hs err; [done|].
  simpl in Hs. apply andb_prop in Hs as [Hs1 Hs2].
  simpl. intros [Hf|Hf]%or_else_fatal; [by eapply Hx | by eapply IH].
Qed.

Lemma first_stop_down_not_fatal {A : Type} (sound : A → bool) (g : A → option stop) n l :
  Forall (λ x, sound x = true → ∀ err, g x ≠ Some (Fatal err)) l →
  forallb sound l = true → ∀ err, first_stop_down g n l ≠ Some (Fatal err).
Proof.
  intros H. revert n. induction H as [|x t Hx _ IH]; intros n Hs err; [done|].
  simpl in Hs. apply andb_prop in Hs as [Hs1 Hs2].
  destruct n as [|n]; [done|]. rewrite first_stop_down_cons.
  intros [Hf|Hf]%or_else_fatal; [by eapply IH | by eapply Hx].
Qed.

Lemma at_stop_not_fatal {A : Type} (sound : A → bool) (g : A → option stop) key m :
  Forall (λ kv, sound kv.2 = true → ∀ err, g kv.2 ≠ Some (Fatal err)) m →
  forallb (λ kv, sound kv.2) m = true → ∀ err, at_stop g key m ≠ Some (Fatal err).
Proof.
  induction 1 as [|[k e] t Hx _ IH]; intros Hs err; [done|].
  simpl in Hs. apply andb_prop in Hs as [Hs1 Hs2].
  simpl. destruct (String.eqb k key); [by apply Hx | by apply IH].
Qed.

Lemma first_stop_down_Some {A : Type} (g : A → option stop) n l s :
  first_stop_down g n l = Some s → ∃ x, g x = Some s.
Proof.
  revert n. induction l as [|x t IH]; intros n; [done|].
  destruct n as [|n]; [done|]. rewrite first_stop_down_cons.
  destruct (first_stop_down g n t) eqn:Ht; simpl.
  - intros [= <-]. by eapply IH.
  - eauto.
Qed.

Lemma token_stop_operator op : is_operator (type op) = true → token_stop op = None.
Proof. intros H. unfold token_stop. by rewrite H. Qed.

Lemma argument_stop_not_fatal l n err :
  first_stop_down argument_stop n l ≠ Some (Fatal err).
Proof.
  revert n. induction l as [|x t IH]; intros n; [done|].
  destruct n as [|n]; [done|]. rewrite first_stop_down_cons.
  intros [Hf|Hf]%or_else_fatal; [by eapply IH|].
  unfold argument_stop in Hf. by destruct (Declaration_name x).
Qed.

(** Splits the soundness of a node into the soundness of its parts and the
    stop of the node into the stops of its parts. *)
Ltac sound_cases Hs Hstop :=
  repeat match type of Hs with
  | _ && _ = true => let H1 := fresh "Hs" in apply andb_prop in Hs as [Hs H1]
  end;
  repeat match goal with
  | H : is_operator _ = true |- _ => apply token_stop_operator in H
  end;
  repeat match type of Hstop with
  | or_else _ _ = Some (Fatal _) => apply or_else_fatal in Hstop as [Hstop|Hstop]
  end.

Lemma sound_not_fatal :
  (∀ e, expression_sound e = true → ∀ err, expression_stop e ≠ Some (Fatal err)) ∧
  (∀ s, statement_sound s = true → ∀ err, statement_stop s ≠ Some (Fatal err)).
Proof.
  apply AST_ind; intros;
    match goal with Hs : _ = true |- _ ≠ _ =>
      cbn [expression_sound statement_sound] in Hs;
      cbn [expression_stop statement_stop]; intros Hstop;
      try discriminate; sound_cases Hs Hstop
    end.
  all: try congruence.
  all: try solve [ match goal with
                   | IH : _ → ∀ err, ?g ≠ Some (Fatal err), Hf : ?g = Some (Fatal _) |- _ =>
                       by eapply IH
                   end ].
  all: try solve [ match goal with
                   | IH : Forall _ ?l, Hs : forallb _ ?l = true,
                     Hf : first_stop _ ?l = Some (Fatal _) |- _ =>
                       exact (first_stop_not_fatal _ _ _ IH Hs _ Hf)
                   | IH : Forall _ ?l, Hs : forallb _ ?l = true,
                     Hf : first_stop_down _ _ ?l = Some (Fatal _) |- _ =>
                       exact (first_stop_down_not_fatal _ _ _ _ IH Hs _ Hf)
                   | Hf : first_stop_down argument_stop _ _ = Some (Fatal _) |- _ =>
                       exact (argument_stop_not_fatal _ _ _ Hf)
                   end ].
  - (* Dictionary *)
    apply first_stop_down_Some in Hstop as [key Hkey].
    exact (at_stop_not_fatal _ _ _ _ H H0 _ Hkey).
  - (* Declaration *)
    destruct initializer as [e|]; [|done]. by eapply H.
  - (* If *)
    destruct elseBranch as [|s rest]; [|done].
    sound_cases H2 Hstop.
    + by eapply H.
    + exact (first_stop_not_fatal _ _ _ H0 Hs0 _ Hstop).
Qed.

Lemma is_operator_recognized t : is_operator t = true ↔ t ∈ recognized_operators.
Proof.
  unfold recognized_operators. split.
  - destruct t; simpl; try discriminate; intros _; repeat constructor.
  - intros Hin. repeat (apply elem_of_cons in Hin as [->|Hin]; [done|]).
    by apply elem_of_nil in Hin.
Qed.

(** C9, as the emitter has it: where and how the walk stops is a function of
    the tree alone ([statement_stop]), whatever the state.  It stops with a
    fatal exit only on a tree that has one of the three structural situations
    (a node of an unrecognized kind, a bare statement or expression
    placeholder, an operator token outside the recognized twelve), and does
    so when the walk reaches one before anything else stops it; the
    branches of an if that has an else branch are not walked.  It does not
    complete on every other tree: a dictionary whose key order names a key
    that has no entry in its value map stops the walk with
    [std::out_of_range] (and a node that is not of the class its place
    asks for has no defined emission).  Where the tree gives no stop, the
    emission completes; in particular the back-patches of if and while
    never leave the pool. *)
Theorem compile_stops_by_the_tree :
  (∀ s c, stop_of (compile_statement s c) = statement_stop s) ∧
  (∀ structure c, stop_of (compile structure c) = first_stop statement_stop structure) ∧
  (∀ s c, statement_stop s = None → ∃ c', compile_statement s c = Done c') ∧
  (∀ s c err, compile_statement s c = Exit err → statement_sound s = false) ∧
  (∀ l c, compile_statement (Statement_ RULE_STATEMENT l) c = Exit InvalidRule ∧
          compile_statement (Statement_ RULE_EXPRESSION l) c = Exit InvalidRule) ∧
  (∀ op unary c,
     stop_of (compile_token op unary c) =
     if is_operator (type op) then None else Some (Fatal (UnknownOperation (line op)))) ∧
  (∀ t, is_operator t = true ↔ t ∈ recognized_operators) ∧
  length recognized_operators = 12%nat.
Proof.
  destruct compile_stops as [_ Hstop]. destruct sound_not_fatal as [_ Hsound].
  split; [done|]. split; [|split; [|split; [|split; [|split; [|split]]]]].
  - intros structure c. unfold compile. rewrite stop_of_bind.
    rewrite <- (stop_of_foreach compile_statement statement_stop structure
                  (Forall_true _ _ (λ s c, Hstop s c)) c).
    by destruct (foreach compile_statement structure c).
  - intros s c Hs. apply stop_of_None. by rewrite Hstop.
  - intros s c err Hexit.
    destruct (statement_sound s) eqn:Hs; [|done].
    destruct (Hsound s Hs err). by rewrite <- (Hstop s c), Hexit.
  - done.
  - intros op unary c. by rewrite stop_of_compile_token.
  - apply is_operator_recognized.
  - done.
Qed.

(** ** The back-patch primitive *)

(** C10, as the emitter has it: [modify_constant] checks nothing.  With a
    pool index below the length of the active region's constants pool it
    overwrites that entry in place and changes nothing else (no length, no
    code, no line, no other region, not the selector); with an index at or
    past the length it is a write past the end of the vector, to which the
    emitter attaches no diagnostic, no abort and no defined result. *)
Theorem modify_constant_checks_nothing index value c :
  let pool := constants (get_current_memory c) in
  (0 ≤ index < Z.of_nat (length pool) →
   ∃ c',
     modify_constant index value c = Done c' ∧
     constants (get_current_memory c') = <[Z.to_nat index := value]> pool ∧
     constants (get_current_memory c') !! Z.to_nat index = Some value ∧
     length (constants (get_current_memory c')) = length pool ∧
     code (get_current_memory c') = code (get_current_memory c) ∧
     lines (get_current_memory c') = lines (get_current_memory c) ∧
     current_memory c' = current_memory c ∧
     ∀ r, r ≠ current_memory c →
          region r (compiler_program c') = region r (compiler_program c)) ∧
  (Z.of_nat (length pool) ≤ index → modify_constant index value c = Undefined).
Proof.
  Local Transparent modify_constant.
  cbv zeta. split.
  - intros Hrange. rewrite modify_constant_in_range by done.
    eexists. split; [done|]. rewrite get_set_current_memory. simpl.
    split; [done|]. split; [apply list_lookup_insert_eq; lia|].
    split; [apply length_insert|]. split; [done|]. split; [done|]. split; [done|].
    intros r Hr. apply region_set_region_ne. congruence.
  - intros Hge. unfold modify_constant. rewrite bool_decide_eq_false_2; [done|lia].
  Local Opaque modify_constant.
Qed.

(** ** Invariants of the emission *)

(** A property of the state that every primitive keeps is kept by every
    completed emission. *)
Section Invariant.

Variable I : Compiler → Prop.

Hypothesis I_line : ∀ l c, I c → I (set_current_line l c).
Hypothesis I_select : ∀ r c, I c → I (select_memory r c).
Hypothesis I_opcode : ∀ opcode c, I c → I (add_opcode opcode c).
Hypothesis I_constant_only : ∀ value c, I c → I (add_constant_only value c).1.
Hypothesis I_modify : ∀ index value c c',
  modify_constant index value c = Done c' → I c → I c'.

Lemma invariant_add_constant value c : I c → I (add_constant value c).
Proof using I_opcode I_constant_only.
  intros Hc. rewrite add_constant_unfold. auto.
Qed.

Lemma invariant_compile_token op unary c c' :
  compile_token op unary c = Done c' → I c → I c'.
Proof using I_line I_opcode.
  destruct (compile_token_unfold op unary c) as [->|[opcode ->]]; [discriminate|].
  intros <-%Done_inj. auto.
Qed.

Lemma invariant_bind_argument argument c c' :
  bind_argument argument c = Done c' → I c → I c'.
Proof using I_opcode I_constant_only.
  destruct (bind_argument_unfold argument c) as [->|[name ->]]; [discriminate|].
  intros <-%Done_inj. auto.
Qed.

Lemma invariant_foreach {A : Type} (f : A → Compiler → outcome Compiler) l :
  Forall (λ x, ∀ c c', f x c = Done c' → I c → I c') l →
  ∀ c c', foreach f l c = Done c' → I c → I c'.
Proof using Type.
  induction 1 as [|x t Hx _ IH]; intros c c'.
  - by intros <-%Done_inj.
  - rewrite foreach_cons. intros (c1 & H1 & H2)%bind_Done. eauto.
Qed.

Lemma invariant_foreach_down {A : Type} (f : A → Compiler → outcome Compiler) n l :
  Forall (λ x, ∀ c c', f x c = Done c' → I c → I c') l →
  ∀ c c', foreach_down f n l c = Done c' → I c → I c'.
Proof using Type.
  intros H c c'. rewrite foreach_down_rev. apply invariant_foreach.
  apply Forall_rev, Forall_take, H.
Qed.

Lemma invariant_at {A : Type} (f : A → Compiler → outcome Compiler) key m :
  Forall (λ kv, ∀ c c', f kv.2 c = Done c' → I c → I c') m →
  ∀ c c', at_ f key m c = Done c' → I c → I c'.
Proof using Type.
  induction 1 as [|[k e] t Hx _ IH]; intros c c'; [discriminate|].
  change (at_ f key ((k, e) :: t) c)
    with (if String.eqb k key then f e c else at_ f key t c).
  destruct (String.eqb k key); eauto.
Qed.

(** Closes a goal [I c'] along the chain of emissions behind [c']. *)
Ltac invariant_chain :=
  repeat first
    [ assumption
    | apply I_line
    | apply I_select
    | apply I_opcode
    | apply I_constant_only
    | apply invariant_add_constant
    | match goal with
      | H : modify_constant _ _ _ = Done ?c2 |- I ?c2 => apply (I_modify _ _ _ _ H)
      | H : compile_token _ _ _ = Done ?c2 |- I ?c2 =>
          apply (invariant_compile_token _ _ _ _ H)
      | H : ?f ?c1 = Done ?c2, IH : ∀ c c', ?f c = Done c' → I c → I c' |- I ?c2 =>
          apply (IH _ _ H)
      | H : foreach ?f ?l _ = Done ?c2, IH : Forall _ ?l |- I ?c2 =>
          apply (invariant_foreach f l IH _ _ H)
      | H : foreach_down ?f ?n ?l _ = Done ?c2, IH : Forall _ ?l |- I ?c2 =>
          apply (invariant_foreach_down f n l IH _ _ H)
      end ].

Lemma compile_invariant :
  (∀ e c c', compile_expression e c = Done c' → I c → I c') ∧
  (∀ s c c', compile_statement s c = Done c' → I c → I c').
Proof using All.
  apply AST_ind; intros;
    match goal with H : _ = Done _ |- _ =>
      cbn [compile_expression compile_statement Expression_line Statement_line] in H;
      inv_Done H
    end.
  all: try match goal with H : Done _ = Done _ |- _ => apply Done_inj in H; subst end.
  all: try solve [invariant_chain].
  - (* Dictionary *)
    invariant_chain.
    eapply invariant_foreach_down; [|eassumption|invariant_chain].
    apply Forall_true. intros key c1 c2 Hat Hc1.
    eapply (invariant_at compile_expression key value); [eassumption..|].
    invariant_chain.
  - (* Function_ *)
    invariant_chain.
    eapply (invariant_foreach_down bind_argument); [|eassumption|invariant_chain].
    apply Forall_true. intros a. apply invariant_bind_argument.
  - (* Expression_ *)
    destruct rule; try discriminate.
    match goal with H : Done _ = Done _ |- _ => apply Done_inj in H; subst end.
    invariant_chain.
  - (* Declaration *)
    destruct initializer as [e|].
    + match goal with H : _ ≫= _ = Done _ |- _ => inv_Done H; apply Done_inj in H end.
      subst. match goal with IH : ∀ e, _ = Some e → _ |- _ => specialize (IH e eq_refl) end.
      invariant_chain.
    + match goal with H : Done _ = Done _ |- _ => apply Done_inj in H end.
      subst. invariant_chain.
  - (* If *)
    destruct elseBranch.
    + match goal with H : _ ≫= _ = Done _ |- _ => inv_Done H end. invariant_chain.
    + match goal with H : Done _ = Done _ |- _ => apply Done_inj in H end.
      subst. invariant_chain.
  - (* Statement_ *)
    destruct rule; discriminate.
Qed.

End Invariant.

Lemma balanced_set_current_memory m c :
  length (code m) = (length (lines m) + length (constants m))%nat →
  balanced c → balanced (set_current_memory m c).
Proof.
  intros Hm Hc r. rewrite region_set_current_memory. case_decide; [done | apply Hc].
Qed.

(** X1: in every region, the lines stream has one entry for each code slot
    that is not the index of a constant: after a completed compilation that
    started from streams so related (empty ones, say), the code of each
    region is as long as its lines and its constants together. *)
Lemma compile_balanced structure c p :
  compile structure c = Done p →
  balanced c →
  ∀ r,
    length (code (region r p)) =
    (length (lines (region r p)) + length (constants (region r p)))%nat.
Proof.
  Local Transparent add_opcode add_constant_only modify_constant
    set_current_line select_memory.
  assert (∀ opcode c, balanced c → balanced (add_opcode opcode c)) as Hopcode.
  { intros opcode c0 Hc. apply balanced_set_current_memory; [|done]. simpl.
    rewrite !length_app. simpl. specialize (Hc (current_memory c0)).
    unfold get_current_memory. lia. }
  unfold compile. intros (c1 & Hc1 & <-%Done_inj)%bind_Done Hc.
  apply (Hopcode OP_EXIT).
  refine (invariant_foreach balanced compile_statement structure _ _ _ Hc1 Hc).
  apply Forall_true. intros s.
  apply (compile_invariant balanced); try done.
  - intros value c0 Hc0. apply balanced_set_current_memory; [|done]. simpl.
    rewrite !length_app. simpl. specialize (Hc0 (current_memory c0)).
    unfold get_current_memory. lia.
  - intros index value c0 c' [_ ->]%modify_constant_Done Hc0.
    apply balanced_set_current_memory; [|done]. simpl. rewrite length_insert.
    apply Hc0.
  Local Opaque add_opcode add_constant_only modify_constant
    set_current_line select_memory.
Qed.

(** ** Lines *)

(** [add_constant_only] appends a slot to the code stream of the active region
    and nothing to its lines stream, so the two streams, equally long before,
    differ in length after it; [add_opcode] appends one entry to each. *)
Lemma add_constant_only_adds_no_line value c :
  let c' := (add_constant_only value c).1 in
  length (code (get_current_memory c')) = S (length (code (get_current_memory c))) ∧
  lines (get_current_memory c') = lines (get_current_memory c) ∧
  (∀ opcode,
     length (code (get_current_memory (add_opcode opcode c)))
       = S (length (code (get_current_memory c))) ∧
     length (lines (get_current_memory (add_opcode opcode c)))
       = S (length (lines (get_current_memory c)))) ∧
  (length (code (get_current_memory c)) = length (lines (get_current_memory c)) →
   length (code (get_current_memory c')) ≠ length (lines (get_current_memory c'))).
Proof.
  cbv zeta. rewrite add_constant_only_memory. simpl. rewrite length_app. simpl.
  split; [lia|]. split; [done|]. split; [|lia].
  intros opcode. rewrite add_opcode_memory. simpl. rewrite !length_app. simpl. lia.
Qed.

(** ** Declarations *)

(** C2, as the emitter has it: compiling the single declaration statement
    [x: int = 5] with a fresh compiler gives the program-region code stream
    DECLARE, 0, 1, PUSH, 2, STORE, 3, POP, EXIT and a constants pool of four
    entries, "x", the int type, 5 and "x" again: the STORE operand is the
    index 3 of a new constant that holds the name once more, as every
    constant-only emission appends to the pool. *)
Theorem declaration_with_initializer l l' :
  compile [Declaration l "x" "int" (Some (Integer l' 5))] new_compiler =
  Done {| program :=
            {| code := [opcode_value OP_DECLARE; 0; 1; opcode_value OP_PUSH; 2;
                        opcode_value OP_STORE; 3; opcode_value OP_POP;
                        opcode_value OP_EXIT];
               constants := [VString "x"; VType {| type_name := "int" |}; VInt 5;
                             VString "x"];
               lines := [l; l'; l'; l'; l'] |};
          functions := empty_memory;
          classes := empty_memory |}.
Proof. reflexivity. Qed.

(** ** Constants are kept *)

Lemma constants_kept_refl c : constants_kept c c.
Proof. by intros r. Qed.

Lemma constants_kept_trans c1 c2 c3 :
  constants_kept c1 c2 → constants_kept c2 c3 → constants_kept c1 c3.
Proof. intros H1 H2 r. etrans; [apply H1 | apply H2]. Qed.

Lemma constants_kept_set_current_memory m c :
  constants (get_current_memory c) `prefix_of` constants m →
  constants_kept c (set_current_memory m c).
Proof.
  intros Hm r. rewrite region_set_current_memory. case_decide; by subst.
Qed.

Lemma constants_kept_set_current_line l c : constants_kept c (set_current_line l c).
Proof. intros r. by rewrite set_current_line_program. Qed.

Lemma constants_kept_select_memory r c : constants_kept c (select_memory r c).
Proof. intros r'. by rewrite select_memory_program. Qed.

Lemma constants_kept_add_opcode opcode c : constants_kept c (add_opcode opcode c).
Proof.
  Local Transparent add_opcode.
  by apply constants_kept_set_current_memory.
  Local Opaque add_opcode.
Qed.

Lemma constants_kept_add_constant_only value c :
  constants_kept c (add_constant_only value c).1.
Proof.
  Local Transparent add_constant_only.
  apply constants_kept_set_current_memory. simpl. by apply prefix_app_r.
  Local Opaque add_constant_only.
Qed.

Lemma constants_kept_add_constant value c : constants_kept c (add_constant value c).
Proof.
  rewrite add_constant_unfold.
  eapply constants_kept_trans;
    [apply constants_kept_add_opcode | apply constants_kept_add_constant_only].
Qed.

Lemma constants_kept_compile_token op unary c c' :
  compile_token op unary c = Done c' → constants_kept c c'.
Proof.
  destruct (compile_token_unfold op unary c) as [->|[opcode ->]]; [discriminate|].
  intros <-%Done_inj.
  eapply constants_kept_trans;
    [apply constants_kept_set_current_line | apply constants_kept_add_opcode].
Qed.

Lemma constants_kept_bind_argument argument c c' :
  bind_argument argument c = Done c' → constants_kept c c'.
Proof.
  destruct (bind_argument_unfold argument c) as [->|[name ->]]; [discriminate|].
  intros <-%Done_inj.
  eapply constants_kept_trans;
    [apply constants_kept_add_opcode | apply constants_kept_add_constant_only].
Qed.

(** A back-patch at or past the end of the pool that [c] had leaves the
    constants of [c] as they were. *)
Lemma constants_kept_modify_constant c c1 c' index value :
  modify_constant index value c1 = Done c' →
  constants_kept c c1 →
  (length (constants (region (current_memory c1) (compiler_program c)))
   ≤ Z.to_nat index)%nat →
  constants_kept c c'.
Proof.
  intros [_ ->]%modify_constant_Done Hkept Hlen r.
  rewrite region_set_current_memory. case_decide as Hr; [|apply Hkept].
  subst r. simpl. destruct (Hkept (current_memory c1)) as [added Hadded].
  unfold get_current_memory. rewrite Hadded.
  rewrite insert_app_r_alt by done. by apply prefix_app_r.
Qed.

Lemma constants_kept_foreach {A : Type} (f : A → Compiler → outcome Compiler) l :
  Forall (λ x, ∀ c c', f x c = Done c' → constants_kept c c') l →
  ∀ c c', foreach f l c = Done c' → constants_kept c c'.
Proof.
  induction 1 as [|x t Hx _ IH]; intros c c'.
  - intros <-%Done_inj. apply constants_kept_refl.
  - rewrite foreach_cons. intros (c1 & H1 & H2)%bind_Done.
    eapply constants_kept_trans; eauto.
Qed.

Lemma constants_kept_foreach_down {A : Type} (f : A → Compiler → outcome Compiler) n l :
  Forall (λ x, ∀ c c', f x c = Done c' → constants_kept c c') l →
  ∀ c c', foreach_down f n l c = Done c' → constants_kept c c'.
Proof.
  intros H c c'. rewrite foreach_down_rev. apply constants_kept_foreach.
  apply Forall_rev, Forall_take, H.
Qed.

Lemma constants_kept_at {A : Type} (f : A → Compiler → outcome Compiler) key m :
  Forall (λ kv, ∀ c c', f kv.2 c = Done c' → constants_kept c c') m →
  ∀ c c', at_ f key m c = Done c' → constants_kept c c'.
Proof.
  induction 1 as [|[k e] t Hx _ IH]; intros c c'; [discriminate|].
  change (at_ f key ((k, e) :: t) c)
    with (if String.eqb k key then f e c else at_ f key t c).
  destruct (String.eqb k key); eauto.
Qed.

(** Closes a goal [constants_kept c c'] along the chain of emissions behind
    [c']. *)
Ltac kept_chain :=
  repeat first
    [ apply constants_kept_refl
    | eassumption
    | match goal with
      | |- constants_kept _ (add_opcode _ _) =>
          eapply constants_kept_trans; [|apply constants_kept_add_opcode]
      | |- constants_kept _ (add_constant_only _ _).1 =>
          eapply constants_kept_trans; [|apply constants_kept_add_constant_only]
      | |- constants_kept _ (add_constant _ _) =>
          eapply constants_kept_trans; [|apply constants_kept_add_constant]
      | |- constants_kept _ (set_current_line _ _) =>
          eapply constants_kept_trans; [|apply constants_kept_set_current_line]
      | |- constants_kept _ (select_memory _ _) =>
          eapply constants_kept_trans; [|apply constants_kept_select_memory]
      | H : compile_token _ _ ?c1 = Done ?c2 |- constants_kept _ ?c2 =>
          eapply constants_kept_trans; [|apply (constants_kept_compile_token _ _ _ _ H)]
      | H : ?f ?c1 = Done ?c2, IH : ∀ c c', ?f c = Done c' → constants_kept c c'
        |- constants_kept _ ?c2 =>
          eapply constants_kept_trans; [|apply (IH _ _ H)]
      | H : foreach ?f ?l ?c1 = Done ?c2, IH : Forall _ ?l |- constants_kept _ ?c2 =>
          eapply constants_kept_trans; [|apply (constants_kept_foreach f l IH _ _ H)]
      | H : foreach_down ?f ?n ?l ?c1 = Done ?c2, IH : Forall _ ?l
        |- constants_kept _ ?c2 =>
          eapply constants_kept_trans;
            [|apply (constants_kept_foreach_down f n l IH _ _ H)]
      end ].

Lemma compile_constants_kept :
  (∀ e c c', compile_expression e c = Done c' → constants_kept c c') ∧
  (∀ s c c', compile_statement s c = Done c' → constants_kept c c').
Proof.
  apply AST_ind; intros;
    match goal with H : _ = Done _ |- _ =>
      cbn [compile_expression compile_statement Expression_line Statement_line] in H;
      inv_Done H
    end.
  all: try match goal with H : Done _ = Done _ |- _ => apply Done_inj in H; subst end.
  all: try solve [kept_chain].
  - (* Dictionary *)
    kept_chain.
    eapply constants_kept_trans; [apply (constants_kept_set_current_line l)|].
    eapply constants_kept_foreach_down; [|eassumption].
    apply Forall_true. intros key c1 c2 Hat.
    eapply constants_kept_trans; [apply constants_kept_add_constant|].
    exact (constants_kept_at compile_expression key value H _ _ Hat).
  - (* Function_ *)
    kept_chain.
    eapply constants_kept_trans;
      [|eapply (constants_kept_foreach_down bind_argument); [|eassumption]].
    + kept_chain.
    + apply Forall_true. intros a. apply constants_kept_bind_argument.
  - (* Expression_ *)
    destruct rule; try discriminate.
    match goal with H : Done _ = Done _ |- _ => apply Done_inj in H; subst end.
    kept_chain.
  - (* Declaration *)
    destruct initializer as [e|].
    + match goal with H : _ ≫= _ = Done _ |- _ => inv_Done H; apply Done_inj in H end.
      subst. match goal with IH : ∀ e, _ = Some e → _ |- _ => specialize (IH e eq_refl) end.
      kept_chain.
    + match goal with H : Done _ = Done _ |- _ => apply Done_inj in H end.
      subst. kept_chain.
  - (* If *)
    destruct elseBranch.
    + match goal with H : _ ≫= _ = Done _ |- _ => inv_Done H end.
      match goal with
      | Hcond : compile_expression e _ = Done ?c1,
        Hthen : foreach compile_statement thenBranch _ = Done ?c3,
        Hpatch : modify_constant _ _ ?c3 = Done _ |- _ =>
          assert (constants_kept c c1) as Hc1 by kept_chain;
          apply (constants_kept_modify_constant c c3 _ _ _ Hpatch); [kept_chain|];
          pose proof (extends_memory _ _ (compile_statements_extends _ _ _ Hthen)) as Hm;
          rewrite add_constant_only_current_memory, add_opcode_current_memory in Hm;
          rewrite Hm, Nat2Z.id, add_opcode_memory; simpl;
          apply prefix_length, (Hc1 (current_memory c1))
      end.
    + match goal with H : Done _ = Done _ |- _ => apply Done_inj in H end.
      subst. kept_chain.
  - (* While *)
    match goal with
    | Hcond : compile_expression e _ = Done ?c1,
      Hbody : foreach compile_statement body _ = Done ?c3,
      Hpatch : modify_constant _ _ ?c5 = Done _ |- _ =>
        assert (constants_kept c c1) as Hc1 by kept_chain;
        apply (constants_kept_modify_constant c c5 _ _ _ Hpatch); [kept_chain|];
        pose proof (extends_memory _ _ (compile_statements_extends _ _ _ Hbody)) as Hm;
        rewrite add_constant_only_current_memory, add_opcode_current_memory in Hm;
        rewrite add_constant_only_current_memory, add_opcode_current_memory;
        rewrite Hm, Nat2Z.id, add_opcode_memory; simpl;
        apply prefix_length, (Hc1 (current_memory c1))
    end.
  - (* Statement_ *)
    destruct rule; discriminate.
Qed.

(** ** Only function literals write the functions region *)

Lemma forallb_always {A : Type} (l : list A) : forallb (λ _, true) l = true.
Proof. induction l; simpl; auto. Qed.

Section Function_free.

Variables (r0 : MemoryType) (m0 : Memory).

Hypothesis r0_not_functions : r0 ≠ FUNCTIONS_MEMORY.

Lemma functions_are_set_current_line l c :
  functions_are r0 m0 c → functions_are r0 m0 (set_current_line l c).
Proof using Type.
  intros [Hr Hm]. split;
    by rewrite ?set_current_line_current_memory, ?set_current_line_program.
Qed.

Lemma functions_are_add_opcode opcode c :
  functions_are r0 m0 c → functions_are r0 m0 (add_opcode opcode c).
Proof using r0_not_functions.
  intros [Hr Hm]. split; [by rewrite add_opcode_current_memory|].
  change (functions ?p) with (region FUNCTIONS_MEMORY p).
  rewrite add_opcode_region; [done | congruence].
Qed.

Lemma functions_are_add_constant_only value c :
  functions_are r0 m0 c → functions_are r0 m0 (add_constant_only value c).1.
Proof using r0_not_functions.
  intros [Hr Hm]. split; [by rewrite add_constant_only_current_memory|].
  change (functions ?p) with (region FUNCTIONS_MEMORY p).
  rewrite add_constant_only_region; [done | congruence].
Qed.

Lemma functions_are_add_constant value c :
  functions_are r0 m0 c → functions_are r0 m0 (add_constant value c).
Proof using r0_not_functions.
  intros Hc. rewrite add_constant_unfold.
  by apply functions_are_add_constant_only, functions_are_add_opcode.
Qed.

Lemma functions_are_modify_constant index value c c' :
  modify_constant index value c = Done c' →
  functions_are r0 m0 c → functions_are r0 m0 c'.
Proof using r0_not_functions.
  intros [_ ->]%modify_constant_Done [Hr Hm]. split; [done|].
  change (functions ?p) with (region FUNCTIONS_MEMORY p).
  rewrite region_set_current_memory. case_decide; [congruence | done].
Qed.

Lemma functions_are_compile_token op unary c c' :
  compile_token op unary c = Done c' →
  functions_are r0 m0 c → functions_are r0 m0 c'.
Proof using r0_not_functions.
  destruct (compile_token_unfold op unary c) as [->|[opcode ->]]; [discriminate|].
  intros <-%Done_inj Hc.
  by apply functions_are_add_opcode, functions_are_set_current_line.
Qed.

Lemma functions_are_foreach {A : Type} (free : A → bool)
    (f : A → Compiler → outcome Compiler) l :
  Forall (λ x, free x = true →
               ∀ c c', f x c = Done c' → functions_are r0 m0 c → functions_are r0 m0 c') l →
  forallb free l = true →
  ∀ c c', foreach f l c = Done c' → functions_are r0 m0 c → functions_are r0 m0 c'.
Proof using Type.
  induction 1 as [|x t Hx _ IH]; intros Hfree c c'.
  - by intros <-%Done_inj.
  - simpl in Hfree. apply andb_prop in Hfree as [Hx1 Ht].
    rewrite foreach_cons. intros (c1 & H1 & H2)%bind_Done. eauto.
Qed.

Lemma functions_are_foreach_down {A : Type} (free : A → bool)
    (f : A → Compiler → outcome Compiler) n l :
  Forall (λ x, free x = true →
               ∀ c c', f x c = Done c' → functions_are r0 m0 c → functions_are r0 m0 c') l →
  forallb free l = true →
  ∀ c c', foreach_down f n l c = Done c' → functions_are r0 m0 c → functions_are r0 m0 c'.
Proof using Type.
  intros H. revert n. induction H as [|x t Hx _ IH]; intros n Hfree c c'.
  - rewrite foreach_down_nil. by intros <-%Done_inj.
  - simpl in Hfree. apply andb_prop in Hfree as [Hx1 Ht].
    destruct n as [|n]; [rewrite foreach_down_O; by intros <-%Done_inj|].
    rewrite foreach_down_cons. intros (c1 & H1 & H2)%bind_Done. eauto.
Qed.

Lemma functions_are_at {A : Type} (free : A → bool)
    (f : A → Compiler → outcome Compiler) key m :
  Forall (λ kv, free kv.2 = true →
                ∀ c c', f kv.2 c = Done c' →
                        functions_are r0 m0 c → functions_are r0 m0 c') m →
  forallb (λ kv, free kv.2) m = true →
  ∀ c c', at_ f key m c = Done c' → functions_are r0 m0 c → functions_are r0 m0 c'.
Proof using Type.
  induction 1 as [|[k e] t Hx _ IH]; intros Hfree c c'; [discriminate|].
  simpl in Hfree. apply andb_prop in Hfree as [Hx1 Ht].
  change (at_ f key ((k, e) :: t) c)
    with (if String.eqb k key then f e c else at_ f key t c).
  destruct (String.eqb k key); eauto.
Qed.

(** Closes a goal [functions_are r0 m0 c'] along the chain of emissions behind
    [c']. *)
Ltac functions_chain :=
  repeat first
    [ assumption
    | apply functions_are_set_current_line
    | apply functions_are_add_opcode
    | apply functions_are_add_constant_only
    | apply functions_are_add_constant
    | match goal with
      | H : modify_constant _ _ _ = Done ?c2 |- functions_are _ _ ?c2 =>
          apply (functions_are_modify_constant _ _ _ _ H)
      | H : compile_token _ _ _ = Done ?c2 |- functions_are _ _ ?c2 =>
          apply (functions_are_compile_token _ _ _ _ H)
      | H : ?f ?c1 = Done ?c2,
        IH : _ = true → ∀ c c', ?f c = Done c' → _ → functions_are _ _ c'
        |- functions_are _ _ ?c2 =>
          apply (IH ltac:(assumption) _ _ H)
      | H : foreach ?f ?l _ = Done ?c2, IH : Forall _ ?l, Hs : forallb _ ?l = true
        |- functions_are _ _ ?c2 =>
          apply (functions_are_foreach _ f l IH Hs _ _ H)
      | H : foreach_down ?f ?n ?l _ = Done ?c2, IH : Forall _ ?l,
        Hs : forallb _ ?l = true |- functions_are _ _ ?c2 =>
          apply (functions_are_foreach_down _ f n l IH Hs _ _ H)
      end ].

Lemma compile_function_free :
  (∀ e, expression_function_free e = true →
        ∀ c c', compile_expression e c = Done c' →
                functions_are r0 m0 c → functions_are r0 m0 c') ∧
  (∀ s, statement_function_free s = true →
        ∀ c c', compile_statement s c = Done c' →
                functions_are r0 m0 c → functions_are r0 m0 c').
Proof using r0_not_functions.
  apply AST_ind; intros;
    match goal with Hs : _ = true, H : _ = Done _ |- _ =>
      cbn [expression_function_free statement_function_free] in Hs;
      cbn [compile_expression compile_statement Expression_line Statement_line] in H;
      try discriminate Hs;
      repeat match type of Hs with
      | _ && _ = true => let H1 := fresh "Hs" in apply andb_prop in Hs as [Hs H1]
      end;
      inv_Done H
    end.
  all: try match goal with H : Done _ = Done _ |- _ => apply Done_inj in H; subst end.
  all: try solve [functions_chain].
  - (* Dictionary *)
    functions_chain.
    refine (functions_are_foreach_down (λ _, true) _ _ key_order _ _ _ _ Hc _);
      [|apply forallb_always|functions_chain].
    apply Forall_true. intros key _ c1 c2 Hat Hc1.
    refine (functions_are_at _ compile_expression key value _ _ _ _ Hat _);
      [eassumption..|functions_chain].
  - (* Expression_ *)
    destruct rule; try discriminate.
    match goal with H : Done _ = Done _ |- _ => apply Done_inj in H; subst end.
    functions_chain.
  - (* Declaration *)
    destruct initializer as [e|].
    + match goal with H : _ ≫= _ = Done _ |- _ => inv_Done H; apply Done_inj in H end.
      subst. match goal with IH : ∀ e, _ = Some e → _ |- _ => specialize (IH e eq_refl) end.
      functions_chain.
    + match goal with H : Done _ = Done _ |- _ => apply Done_inj in H end.
      subst. functions_chain.
  - (* If *)
    destruct elseBranch.
    + match goal with H : _ ≫= _ = Done _ |- _ => inv_Done H end. functions_chain.
    + match goal with H : Done _ = Done _ |- _ => apply Done_inj in H end.
      subst. functions_chain.
  - (* Statement_ *)
    destruct rule; discriminate.
Qed.

End Function_free.

(** ** The whole program *)


(** The lines of a region are never rewritten. *)
Lemma compile_statement_lines s c c' r :
  compile_statement s c = Done c' →
  lines (region r (compiler_program c)) `prefix_of` lines (region r (compiler_program c')).
Proof.
  Local Transparent add_opcode add_constant_only modify_constant
    set_current_line select_memory.
  intros Hs.
  refine (proj2 (compile_invariant
            (λ x, lines (region r (compiler_program c))
                  `prefix_of` lines (region r (compiler_program x)))
            _ _ _ _ _) s c c' Hs _); try done.
  - intros opcode x Hx. unfold add_opcode. rewrite region_set_current_memory.
    case_decide; [|done]. subst. simpl. by apply prefix_app_r.
  - intros value x Hx. unfold add_constant_only. cbv beta zeta. unfold fst.
    rewrite region_set_current_memory. case_decide; [|done]. by subst.
  - intros index value x x' [_ ->]%modify_constant_Done Hx.
    rewrite region_set_current_memory. case_decide; [|done]. by subst.
  Local Opaque add_opcode add_constant_only modify_constant
    set_current_line select_memory.
Qed.

(** X3: the emission of a statement only appends.  When it completes, the
    selector is what it was, and in each of the three regions the code
    stream, the lines stream and the constants pool are what they were with
    entries added at the end: the back-patches of if and while rewrite
    placeholders of the statement itself, never a constant that was in the
    pool before the statement. *)
Theorem statement_only_appends s c c' :
  compile_statement s c = Done c' →
  current_memory c' = current_memory c ∧
  ∀ r,
    code (region r (compiler_program c))
      `prefix_of` code (region r (compiler_program c')) ∧
    lines (region r (compiler_program c))
      `prefix_of` lines (region r (compiler_program c')) ∧
    constants (region r (compiler_program c))
      `prefix_of` constants (region r (compiler_program c')).
Proof.
  intros Hs. pose proof (compile_statement_extends _ _ _ Hs) as [Hm Hcode _ _].
  split; [done|]. intros r. split; [apply Hcode|]. split.
  - by eapply compile_statement_lines.
  - by apply (proj2 compile_constants_kept s c c').
Qed.

(** X4: the classes region is never written by a compilation that starts
    with another region selected: after [compile] it is what it was. *)
Theorem compile_leaves_classes structure c p :
  compile structure c = Done p →
  current_memory c ≠ CLASSES_MEMORY →
  classes p = classes (compiler_program c).
Proof.
  unfold compile. intros (c1 & Hc1 & <-%Done_inj)%bind_Done Hsel.
  pose proof (compile_statements_extends _ _ _ Hc1) as Hext.
  change (classes ?x) with (region CLASSES_MEMORY x).
  rewrite add_opcode_region by (by rewrite (extends_memory _ _ Hext)).
  by apply (extends_frame _ _ Hext).
Qed.

(** X5: only function literals write the functions region.  A compilation
    of statements that hold no function literal, started with another region
    than the functions region selected, leaves the functions region as it
    was. *)
Theorem compile_without_literal_leaves_functions structure c p :
  forallb statement_function_free structure = true →
  current_memory c ≠ FUNCTIONS_MEMORY →
  compile structure c = Done p →
  functions p = functions (compiler_program c).
Proof.
  intros Hfree Hsel. unfold compile. intros (c1 & Hc1 & <-%Done_inj)%bind_Done.
  assert (functions_are (current_memory c) (functions (compiler_program c)) c1)
    as Hc1'.
  { refine (functions_are_foreach _ _ statement_function_free
              compile_statement structure _ Hfree _ _ Hc1 _); [|done].
    apply Forall_true. intros s.
    apply (proj2 (compile_function_free _ _ Hsel)). }
  by destruct (functions_are_add_opcode _ _ Hsel OP_EXIT c1 Hc1').
Qed.

(** ** While: the exit offset *)

(** X6: for every while statement (on a code stream shorter than [2^32]
    slots), the BRANCH_FALSE placeholder is patched to the number of slots
    that follow its operand up to the end of the loop, the RJUMP opcode and
    the RJUMP operand included, plus one: the length of the body code plus
    three. *)
Theorem while_exit_offset l condition body c c' :
  compile_statement (While l condition body) c = Done c' →
  Z.of_nat (length (code (get_current_memory c'))) < 2 ^ 32 →
  ∃ c1 body_code k,
    compile_expression condition (set_current_line l c) = Done c1 ∧
    let placeholder := length (constants (get_current_memory c1)) in
    code (get_current_memory c') =
      code (get_current_memory c1)
      ++ [opcode_value OP_BRANCH_FALSE; Z.of_nat placeholder]
      ++ body_code ++ [opcode_value OP_RJUMP; Z.of_nat k] ∧
    constants (get_current_memory c') !! placeholder
      = Some (VInt (Z.of_nat (length body_code) + 3)).
Proof.
  intros (c1 & c3 & Hcond & Hbody & Hlt & ->)%While_shape Hsmall.
  cbv zeta in *.
  rewrite get_set_current_memory in *. simpl in *.
  rewrite add_constant_only_memory, add_opcode_memory in *. simpl in *.
  pose proof (compile_statements_extends _ _ _ Hbody)
    as (body_code & Hcode3 & _)%extends_current.
  rewrite add_constant_only_memory, add_opcode_memory in Hcode3. simpl in Hcode3.
  exists c1, body_code, (length (constants (get_current_memory c3))).
  split; [done|]. split.
  - rewrite Hcode3. rewrite <- !app_assoc. done.
  - rewrite list_lookup_insert_eq by (rewrite length_app; simpl; lia).
    do 2 f_equal.
    rewrite Hcode3, !length_app in Hsmall. simpl in Hsmall.
    unfold current_code_line.
    rewrite !add_constant_only_memory, !add_opcode_memory. simpl.
    rewrite Hcode3, !length_app. simpl.
    rewrite (to_uint32_small (Z.of_nat _)) by lia.
    rewrite (to_uint32_small (Z.of_nat _)) by lia.
    rewrite to_uint32_small; lia.
Qed.

(** ** Operators outside the recognized set *)

(** X7: an expression whose operator token is outside the recognized set
    never compiles.  The logical operators [and] and [or] are outside it, so
    that no logical expression compiles: unary, binary and logical
    expressions over such a token never complete, and when the operands
    themselves give no stop, the emission is the fatal exit for an unknown
    operation, with the line of the token. *)
Theorem unrecognized_operator_never_completes op l e1 e2 c :
  is_operator (type op) = false →
  (∀ c', compile_expression (Unary l op e1) c ≠ Done c') ∧
  (∀ c', compile_expression (Binary l e1 op e2) c ≠ Done c') ∧
  (∀ c', compile_expression (Logical l e1 op e2) c ≠ Done c') ∧
  (expression_stop e1 = None → expression_stop e2 = None →
   compile_expression (Binary l e1 op e2) c = Exit (UnknownOperation (line op)) ∧
   compile_expression (Logical l e1 op e2) c = Exit (UnknownOperation (line op))) ∧
  is_operator TOKEN_AND = false ∧ is_operator TOKEN_OR = false.
Proof.
  intros Hop. destruct compile_stops as [Hstop _].
  assert (token_stop op = Some (Fatal (UnknownOperation (line op)))) as Htoken.
  { unfold token_stop. by rewrite Hop. }
  assert (∀ e, (∃ s, expression_stop e = Some s) →
               ∀ c', compile_expression e c ≠ Done c') as Hnever.
  { intros e [s Hs] c' Hdone. specialize (Hstop e c).
    rewrite Hdone, Hs in Hstop. discriminate. }
  assert (∀ e, expression_stop e = Some (Fatal (UnknownOperation (line op))) →
               compile_expression e c = Exit (UnknownOperation (line op))) as Hexit.
  { intros e Hs. specialize (Hstop e c). rewrite Hs in Hstop.
    destruct (compile_expression e c); simpl in Hstop; congruence. }
  split; [|split; [|split; [|split; [|done]]]].
  - apply Hnever. cbn [expression_stop]. rewrite Htoken.
    destruct (expression_stop e1); simpl; eauto.
  - apply Hnever. cbn [expression_stop]. rewrite Htoken.
    destruct (expression_stop e1), (expression_stop e2); simpl; eauto.
  - apply Hnever. cbn [expression_stop]. rewrite Htoken.
    destruct (expression_stop e1), (expression_stop e2); simpl; eauto.
  - intros H1 H2.
    split; apply Hexit; cbn [expression_stop]; by rewrite H1, H2, Htoken.
Qed.

(** ** Dictionaries *)

Lemma first_stop_down_None {A : Type} (g : A → option stop) n l :
  first_stop_down g n l = None → Forall (λ x, g x = None) (take n l).
Proof.
  revert n. induction l as [|x t IH]; intros n.
  - rewrite take_nil. constructor.
  - destruct n as [|n]; [constructor|]. rewrite first_stop_down_cons.
    destruct (first_stop_down g n t) eqn:Ht; [discriminate|]. simpl.
    intros Hx. constructor; [done | by apply IH].
Qed.

Lemma at_stop_None {A : Type} (g : A → option stop) key (m : list (string * A)) :
  at_stop g key m = None → key ∈ m.*1.
Proof.
  induction m as [|[k e] t IH]; [discriminate|]. simpl.
  destruct (String.eqb_spec k key) as [->|Hne]; intros Hstop.
  - apply elem_of_cons. by left.
  - apply elem_of_cons. right. by apply IH.
Qed.

(** X8: a dictionary whose key order names a key that has no entry in its
    map never compiles: the emission reaches [at] on that key, which throws,
    unless it has stopped before (the key order being within the range of
    the [int] that counts it down). *)
Theorem dictionary_missing_key_never_completes l value key_order key c :
  key ∈ key_order →
  key ∉ value.*1 →
  Z.of_nat (length key_order) ≤ 2 ^ 31 →
  ∀ c', compile_expression (Dictionary l value key_order) c ≠ Done c'.
Proof.
  intros Hin Hout Hlen c' Hdone.
  destruct compile_stops as [Hstop _]. specialize (Hstop (Dictionary l value key_order) c).
  rewrite Hdone in Hstop. cbn [expression_stop stop_of] in Hstop.
  symmetry in Hstop. apply first_stop_down_None in Hstop.
  rewrite down_count_32, firstn_all in Hstop by done.
  rewrite Forall_forall in Hstop. apply Hout.
  eapply at_stop_None, Hstop. done.
Qed.

(** ** Parameter bindings *)

(** X9: the parameters of a function literal are bound by a loop whose
    counter is an [int16_t].  Up to 32768 arguments every one is bound, the
    last first; with 32769 arguments the counter starts negative and no
    parameter is bound at all, though every argument has been declared. *)
Theorem parameter_bindings_count arguments body c :
  (Z.of_nat (length arguments) ≤ 2 ^ 15 →
   compile_function_body arguments body c =
   (c1 ← foreach compile_statement arguments c;
    c2 ← foreach bind_argument (rev arguments) c1;
    foreach compile_statement body c2)) ∧
  (Z.of_nat (length arguments) = 2 ^ 15 + 1 →
   compile_function_body arguments body c =
   (c1 ← foreach compile_statement arguments c;
    foreach compile_statement body c1)).
Proof.
  unfold compile_function_body. split; intros Hlen.
  - destruct (foreach compile_statement arguments c) as [c1| | |]; [simpl|done..].
    by rewrite foreach_down_rev, down_count_16, firstn_all.
  - destruct (foreach compile_statement arguments c) as [c1| | |]; [simpl|done..].
    replace (down_count 16 (length arguments)) with 0%nat.
    + by rewrite foreach_down_O.
    + unfold down_count, to_signed. rewrite Hlen. reflexivity.
Qed.

(** ** Constants: emit, patch, read *)

(** X10: the index that [add_constant_only] returns is the index it writes as
    the last code slot, and the pool holds the value there.  A
    [modify_constant] at that index completes, puts the new value there, and
    changes no other entry of the pool, no code slot and no line. *)
Theorem constant_emit_patch_read value value' c :
  let c1 := (add_constant_only value c).1 in
  let index := (add_constant_only value c).2 in
  last (code (get_current_memory c1)) = Some index ∧
  constants (get_current_memory c1) !! Z.to_nat index = Some value ∧
  ∃ c2,
    modify_constant index value' c1 = Done c2 ∧
    constants (get_current_memory c2) !! Z.to_nat index = Some value' ∧
    (∀ i, i ≠ Z.to_nat index →
          constants (get_current_memory c2) !! i = constants (get_current_memory c1) !! i) ∧
    length (constants (get_current_memory c2)) = length (constants (get_current_memory c1)) ∧
    code (get_current_memory c2) = code (get_current_memory c1) ∧
    lines (get_current_memory c2) = lines (get_current_memory c).
Proof.
  cbv zeta. rewrite add_constant_only_index, Nat2Z.id.
  assert (0 ≤ Z.of_nat (length (constants (get_current_memory c)))
          < Z.of_nat (length (constants (get_current_memory (add_constant_only value c).1))))
    as Hrange.
  { rewrite add_constant_only_memory. simpl. rewrite length_app. simpl. lia. }
  rewrite (modify_constant_in_range _ value' _ Hrange).
  split; [|split].
  - rewrite add_constant_only_memory. simpl. apply last_snoc.
  - rewrite add_constant_only_memory. simpl.
    rewrite lookup_app_r by done. by rewrite Nat.sub_diag.
  - eexists. split; [done|]. rewrite get_set_current_memory. simpl.
    rewrite Nat2Z.id.
    split; [apply list_lookup_insert_eq; lia|].
    split; [intros i Hi; by apply list_lookup_insert_ne|].
    split; [apply length_insert|]. split; [done|].
    by rewrite add_constant_only_memory.
Qed.

(** ** Expressions emit code *)

Lemma compile_expressions_extends l c c' :
  foreach compile_expression l c = Done c' → extends c c'.
Proof.
  apply extends_foreach, Forall_true. intros e. apply compile_expression_extends.
Qed.

Lemma compile_expressions_down_extends n l c c' :
  foreach_down compile_expression n l c = Done c' → extends c c'.
Proof.
  apply extends_foreach_down, Forall_true. intros e. apply compile_expression_extends.
Qed.

Lemma compile_entries_extends value n key_order c c' :
  foreach_down
    (λ key c, at_ compile_expression key value (add_constant (VString key) c))
    n key_order c = Done c' →
  extends c c'.
Proof.
  apply extends_foreach_down, Forall_true. intros key c1 c2 Hat.
  eapply extends_trans; [apply extends_add_constant|].
  refine (extends_at compile_expression key value _ _ _ Hat).
  apply Forall_true. intros kv. apply compile_expression_extends.
Qed.

(** Closes a goal [extends c c'] along the emissions of subtrees behind
    [c']. *)
Ltac extends_subtrees :=
  repeat first
    [ apply extends_refl
    | match goal with
      | |- extends _ (add_opcode _ _) =>
          eapply extends_trans; [|apply extends_add_opcode]
      | |- extends _ (add_constant_only _ _).1 =>
          eapply extends_trans; [|apply extends_add_constant_only]
      | |- extends _ (add_constant _ _) =>
          eapply extends_trans; [|apply extends_add_constant]
      | |- extends _ (set_current_line _ _) =>
          eapply extends_trans; [|apply extends_set_current_line]
      | H : compile_expression _ _ = Done ?c2 |- extends _ ?c2 =>
          eapply extends_trans; [|apply (compile_expression_extends _ _ _ H)]
      | H : foreach compile_expression _ _ = Done ?c2 |- extends _ ?c2 =>
          eapply extends_trans; [|apply (compile_expressions_extends _ _ _ H)]
      | H : foreach_down compile_expression _ _ _ = Done ?c2 |- extends _ ?c2 =>
          eapply extends_trans; [|apply (compile_expressions_down_extends _ _ _ _ H)]
      | H : foreach_down _ _ _ _ = Done ?c2 |- extends _ ?c2 =>
          eapply extends_trans; [|apply (compile_entries_extends _ _ _ _ _ H)]
      end ].

(** The code of the active region is longer after the last emission of a
    case than it was before the case. *)
Ltac code_grows :=
  rewrite ?add_constant_only_memory, ?add_opcode_memory, ?add_constant_memory;
  simpl; rewrite ?length_app; simpl;
  match goal with
  | |- (length (code (get_current_memory ?a)) < ?longer)%nat =>
      match longer with
      | context [length (code (get_current_memory ?b))] =>
          let Hx := fresh in
          assert (extends a b) as Hx by extends_subtrees;
          apply extends_current in Hx as (? & -> & _); rewrite length_app; lia
      end
  end.

(** X11: no expression compiles to nothing: a completed emission of an
    expression appends at least one slot to the code of the active region. *)
Theorem expression_emits_code e c c' :
  compile_expression e c = Done c' →
  (length (code (get_current_memory c)) < length (code (get_current_memory c')))%nat.
Proof.
  revert c c'.
  refine (proj1 (AST_ind
    (λ e, ∀ c c', compile_expression e c = Done c' →
       (length (code (get_current_memory c))
        < length (code (get_current_memory c')))%nat)
    (λ _, True) _ _ _ _ _ _ _ _ _ _ _ _ _ _ _ _ _ _ _ _ _ _ _ _ _) e);
    try done; intros;
    match goal with H : _ = Done _ |- _ =>
      cbn [compile_expression Expression_line] in H; inv_Done H
    end.
  all: try match goal with H : Done _ = Done _ |- _ => apply Done_inj in H; subst end.
  all: try match goal with
           | H : compile_token ?op ?u ?ck = Done _ |- _ =>
               destruct (compile_token_unfold op u ck) as [Hu|[opcode Hu]];
               rewrite Hu in H; [discriminate|]; apply Done_inj in H; subst
           end.
  all: try solve [code_grows].
  - (* Group *)
    match goal with IH : ∀ c c', _ → _, H : _ = Done _ |- _ => apply IH in H end.
    by rewrite set_current_line_memory in *.
  - (* Function_ *)
    match goal with
    | Ha : foreach compile_statement arguments _ = Done ?c0,
      Hb : foreach_down bind_argument _ _ ?c0 = Done ?c1,
      Hc : foreach compile_statement body ?c1 = Done ?c2 |- _ =>
        assert (extends (select_memory FUNCTIONS_MEMORY (set_current_line l c))
                  (add_opcode OP_RETURN (add_constant VNone c2))) as Hext
    end.
    { eapply extends_trans; [eapply compile_statements_extends; eassumption|].
      eapply extends_trans;
        [eapply (extends_foreach_down bind_argument); [|eassumption];
         apply Forall_true; intros a; apply extends_bind_argument|].
      eapply extends_trans; [eapply compile_statements_extends; eassumption|].
      eapply extends_trans; [apply extends_add_constant | apply extends_add_opcode]. }
    destruct (extends_code _ _ Hext (current_memory c)) as [emitted Hemitted].
    rewrite select_memory_program, set_current_line_program in Hemitted.
    rewrite !add_constant_only_memory, add_opcode_memory, select_memory_memory.
    rewrite set_current_line_current_memory, Hemitted. simpl.
    rewrite !length_app. simpl. unfold get_current_memory. lia.
  - (* Expression_ *)
    destruct rule; try discriminate.
    match goal with H : Done _ = Done _ |- _ => apply Done_inj in H; subst end.
    code_grows.
Qed.

(** X12: every statement but an if with an else branch emits code: a
    completed emission of a print, an expression statement, a declaration, a
    return, an if without else or a while appends at least one slot to the
    code of the active region. *)
Theorem statement_emits_code s c c' :
  compile_statement s c = Done c' →
  (∀ l condition thenBranch elseBranch,
     s = If l condition thenBranch elseBranch → elseBranch = []) →
  (length (code (get_current_memory c)) < length (code (get_current_memory c')))%nat.
Proof.
  intros Hs Helse. destruct s as [l e|l e|l name ty initializer|l e|l e t el|l e b|rule l].
  - cbn [compile_statement Statement_line] in Hs. inv_Done Hs.
    apply Done_inj in Hs. subst. code_grows.
  - cbn [compile_statement Statement_line] in Hs. inv_Done Hs.
    apply Done_inj in Hs. subst. code_grows.
  - pose proof (compile_statement_extends _ _ _ Hs) as _.
    cbn [compile_statement Statement_line] in Hs.
    destruct initializer as [e|].
    + inv_Done Hs. apply Done_inj in Hs. subst.
      pose proof (compile_expression_extends _ _ _ Hc) as (? & Hcode & _)%extends_current.
      rewrite add_opcode_memory, add_constant_only_memory, add_opcode_memory. simpl.
      rewrite Hcode, !add_constant_only_memory, add_opcode_memory. simpl.
      rewrite !length_app. simpl. rewrite set_current_line_memory. lia.
    + apply Done_inj in Hs. subst.
      rewrite !add_constant_only_memory, add_opcode_memory. simpl.
      rewrite !length_app. simpl. rewrite set_current_line_memory. lia.
  - cbn [compile_statement Statement_line] in Hs. inv_Done Hs.
    apply Done_inj in Hs. subst. code_grows.
  - rewrite (Helse l e t el eq_refl) in Hs.
    apply If_shape in Hs as (c1 & c3 & Hcond & Hthen & _ & ->). cbv zeta in *.
    rewrite get_set_current_memory. simpl.
    pose proof (compile_expression_extends _ _ _ Hcond) as (? & Hcode1 & _)%extends_current.
    pose proof (compile_statements_extends _ _ _ Hthen) as (? & Hcode3 & _)%extends_current.
    rewrite Hcode3, add_constant_only_memory, add_opcode_memory. simpl.
    rewrite Hcode1, !length_app. simpl. rewrite set_current_line_memory. lia.
  - apply While_shape in Hs as (c1 & c3 & Hcond & Hbody & _ & ->). cbv zeta in *.
    rewrite get_set_current_memory. simpl.
    pose proof (compile_expression_extends _ _ _ Hcond) as (? & Hcode1 & _)%extends_current.
    pose proof (compile_statements_extends _ _ _ Hbody) as (? & Hcode3 & _)%extends_current.
    rewrite add_constant_only_memory, add_opcode_memory. simpl.
    rewrite Hcode3, add_constant_only_memory, add_opcode_memory. simpl.
    rewrite Hcode1, !length_app. simpl. rewrite set_current_line_memory. lia.
  - cbn [compile_statement] in Hs. destruct rule; discriminate.
Qed.

(** ** The current line *)

Lemma add_opcode_current_line opcode c :
  current_line (add_opcode opcode c) = current_line c.
Proof.
  Local Transparent add_opcode.
  reflexivity.
  Local Opaque add_opcode.
Qed.

Lemma add_constant_only_current_line value c :
  current_line (add_constant_only value c).1 = current_line c.
Proof.
  Local Transparent add_constant_only.
  reflexivity.
  Local Opaque add_constant_only.
Qed.

Lemma add_constant_current_line value c :
  current_line (add_constant value c) = current_line c.
Proof.
  by rewrite add_constant_unfold, add_constant_only_current_line,
       add_opcode_current_line.
Qed.

Lemma select_memory_current_line r c :
  current_line (select_memory r c) = current_line c.
Proof.
  Local Transparent select_memory.
  reflexivity.
  Local Opaque select_memory.
Qed.

Lemma set_current_line_current_line l c : current_line (set_current_line l c) = l.
Proof.
  Local Transparent set_current_line.
  reflexivity.
  Local Opaque set_current_line.
Qed.

Lemma modify_constant_current_line index value c c' :
  modify_constant index value c = Done c' → current_line c' = current_line c.
Proof. by intros [_ ->]%modify_constant_Done. Qed.

Lemma compile_token_current_line op unary c c' :
  compile_token op unary c = Done c' → current_line c' = line op.
Proof.
  destruct (compile_token_unfold op unary c) as [->|[opcode ->]]; [discriminate|].
  intros <-%Done_inj.
  by rewrite add_opcode_current_line, set_current_line_current_line.
Qed.

Lemma bind_arguments_current_line n l c c' :
  foreach_down bind_argument n l c = Done c' → current_line c' = current_line c.
Proof.
  rewrite foreach_down_rev. generalize (rev (take n l)). clear n l.
  intros l. revert c. induction l as [|a l IH]; intros c.
  - by intros <-%Done_inj.
  - rewrite foreach_cons. intros (c1 & H1 & H2)%bind_Done.
    rewrite (IH _ H2).
    destruct (bind_argument_unfold a c) as [Hu|[name Hd]];
      rewrite H1 in *; [discriminate|].
    apply Done_inj in Hd. subst c1.
    by rewrite add_constant_only_current_line, add_opcode_current_line.
Qed.

Lemma last_of_foreach {A : Type} (f : A → Compiler → outcome Compiler) (g : A → Z) l :
  Forall (λ x, ∀ c c', f x c = Done c' → current_line c' = g x) l →
  ∀ c c', foreach f l c = Done c' → current_line c' = last_of g l (current_line c).
Proof.
  induction 1 as [|x t Hx _ IH]; intros c c'.
  - by intros <-%Done_inj.
  - rewrite foreach_cons. intros (c1 & H1 & H2)%bind_Done.
    rewrite (IH _ _ H2), (Hx _ _ H1). done.
Qed.

Lemma last_of_foreach_down {A : Type} (f : A → Compiler → outcome Compiler)
    (g : A → Z) n l :
  Forall (λ x, ∀ c c', f x c = Done c' → current_line c' = g x) l →
  ∀ c c', foreach_down f n l c = Done c' →
    current_line c' = last_of_down g n l (current_line c).
Proof.
  intros Hl c c'. destruct Hl as [|x t Hx _].
  - by intros <-%Done_inj.
  - destruct n as [|n]; [rewrite foreach_down_O; by intros <-%Done_inj|].
    rewrite foreach_down_cons. intros (c1 & _ & H2)%bind_Done.
    exact (Hx _ _ H2).
Qed.

Lemma at_line_at {A : Type} (f : A → Compiler → outcome Compiler) (g : A → Z)
    key d m :
  Forall (λ kv, ∀ c c', f kv.2 c = Done c' → current_line c' = g kv.2) m →
  ∀ c c', at_ f key m c = Done c' → current_line c' = at_line g key d m.
Proof.
  induction 1 as [|[k e] t Hx _ IH]; intros c c'; [discriminate|].
  change (at_ f key ((k, e) :: t) c)
    with (if String.eqb k key then f e c else at_ f key t c).
  change (at_line g key d ((k, e) :: t))
    with (if String.eqb k key then g e else at_line g key d t).
  destruct (String.eqb k key); [apply Hx | apply IH].
Qed.

(** Rewrites the line of the state at the end of a chain of emissions to the
    line at its start. *)
Ltac line_chain :=
  repeat first
    [ rewrite add_opcode_current_line
    | rewrite add_constant_only_current_line
    | rewrite add_constant_current_line
    | rewrite select_memory_current_line
    | rewrite set_current_line_current_line
    | match goal with
      | H : modify_constant _ _ _ = Done ?c2 |- context [current_line ?c2] =>
          rewrite (modify_constant_current_line _ _ _ _ H)
      | H : compile_token _ _ _ = Done ?c2 |- context [current_line ?c2] =>
          rewrite (compile_token_current_line _ _ _ _ H)
      | H : foreach_down bind_argument _ _ _ = Done ?c2 |- context [current_line ?c2] =>
          rewrite (bind_arguments_current_line _ _ _ _ H)
      | H : ?f ?c1 = Done ?c2, IH : ∀ c c', ?f c = Done c' → current_line c' = _
        |- context [current_line ?c2] =>
          rewrite (IH _ _ H)
      | H : foreach ?f ?l _ = Done ?c2, IH : Forall _ ?l
        |- context [current_line ?c2] =>
          rewrite (last_of_foreach f _ l IH _ _ H)
      | H : foreach_down ?f ?n ?l _ = Done ?c2, IH : Forall _ ?l
        |- context [current_line ?c2] =>
          rewrite (last_of_foreach_down f _ n l IH _ _ H)
      end ].

(** X18: the line that the emitter holds after a completed emission is
    read off the tree alone, whatever the state before: it is the line of the
    node or of the operator token that was entered last.  The opcode that
    closes a composite node (PRINT, POP, RETURN, STORE, LIST, CALL, FUNCTION
    and the like) is emitted after its subtrees and is recorded with that
    line, not with the line of the node itself. *)
Theorem current_line_is_of_last_node :
  (∀ e c c', compile_expression e c = Done c' →
     current_line c' = expression_last_line e) ∧
  (∀ s c c', compile_statement s c = Done c' →
     current_line c' = statement_last_line s) ∧
  (∀ l e c c', compile_statement (Print l e) c = Done c' →
     last (lines (get_current_memory c')) = Some (expression_last_line e)).
Proof.
  assert ((∀ e c c', compile_expression e c = Done c' →
             current_line c' = expression_last_line e) ∧
          (∀ s c c', compile_statement s c = Done c' →
             current_line c' = statement_last_line s)) as [He Hs].
  { apply AST_ind; intros;
      match goal with H : _ = Done _ |- _ =>
        cbn [compile_expression compile_statement Expression_line Statement_line] in H;
        inv_Done H
      end.
    all: try match goal with H : Done _ = Done _ |- _ => apply Done_inj in H; subst end.
    all: cbn [expression_last_line statement_last_line].
    all: try solve [line_chain; done].
    - (* Dictionary *)
      line_chain.
      assert (Forall (λ key, ∀ c1 c2,
                at_ compile_expression key value (add_constant (VString key) c1)
                  = Done c2 →
                current_line c2 = at_line expression_last_line key l value)
                key_order) as Hkeys.
      { apply Forall_true. intros key c1 c2 Hat.
        exact (at_line_at compile_expression expression_last_line key l value
                 H _ _ Hat). }
      rewrite (last_of_foreach_down _ _ _ _ Hkeys _ _ Hc). by line_chain.
    - (* Expression_ *)
      destruct rule; try discriminate.
      match goal with H : Done _ = Done _ |- _ => apply Done_inj in H; subst end.
      by line_chain.
    - (* Declaration *)
      destruct initializer as [e|].
      + match goal with H : _ ≫= _ = Done _ |- _ => inv_Done H; apply Done_inj in H end.
        subst. match goal with IH : ∀ e, _ = Some e → _ |- _ => specialize (IH e eq_refl) end.
        by line_chain.
      + match goal with H : Done _ = Done _ |- _ => apply Done_inj in H end.
        subst. by line_chain.
    - (* If *)
      destruct elseBranch.
      + match goal with H : _ ≫= _ = Done _ |- _ => inv_Done H end. by line_chain.
      + match goal with H : Done _ = Done _ |- _ => apply Done_inj in H end.
        subst. by line_chain.
    - (* Statement_ *)
      destruct rule; discriminate. }
  split; [done|]. split; [done|].
  intros l e c c' H. cbn [compile_statement Statement_line] in H. inv_Done H.
  apply Done_inj in H. subst c'.
  rewrite add_opcode_memory. simpl. rewrite last_snoc. f_equal. by eapply He.
Qed.

(** ** Function literals: the entry point *)

(** X19: a function literal that stands outside a function costs the
    region it stands in three code slots and two constants, whatever its
    arguments and its body: FUNCTION, the index of a constant that holds the
    entry point and the index of a constant that holds the return type.  The
    entry point is the size the code of the functions region had before the
    literal, where the code of the literal begins (the functions code being
    shorter than [2^32] slots). *)
Theorem function_index_is_entry_point l arguments return_type body c c' :
  compile_expression (Function_ l arguments return_type body) c = Done c' →
  current_memory c ≠ FUNCTIONS_MEMORY →
  Z.of_nat (length (code (functions (compiler_program c)))) < 2 ^ 32 →
  ∃ function_code,
    let entry := length (code (functions (compiler_program c))) in
    let k := length (constants (get_current_memory c)) in
    code (functions (compiler_program c')) =
      code (functions (compiler_program c)) ++ function_code ∧
    code (get_current_memory c') =
      code (get_current_memory c)
      ++ [opcode_value OP_FUNCTION; Z.of_nat k; Z.of_nat (k + 1)] ∧
    constants (get_current_memory c') =
      constants (get_current_memory c)
      ++ [VInt (Z.of_nat entry); VString return_type].
Proof.
  intros (cb & Hbody & Hext & ->)%Function_shape Hsel Hsmall. cbv zeta in *.
  set (c0 := select_memory FUNCTIONS_MEMORY (set_current_line l c)) in *.
  set (cT := add_opcode OP_RETURN (add_constant VNone cb)).
  assert (extends c0 cT) as HextT by (unfold cT; extends_chain).
  assert (current_memory cT = FUNCTIONS_MEMORY) as HmT
    by (by rewrite (extends_memory _ _ HextT)).
  destruct (extends_code _ _ HextT FUNCTIONS_MEMORY) as [function_code Hcode].
  exists function_code. split; [|split].
  - change (functions ?p) with (region FUNCTIONS_MEMORY p).
    rewrite !add_constant_only_region, add_opcode_region
      by (by rewrite ?add_constant_only_current_memory, ?add_opcode_current_memory,
               ?select_memory_current_memory).
    rewrite select_memory_program. exact Hcode.
  - rewrite !add_constant_only_memory, add_opcode_memory, select_memory_memory.
    simpl. rewrite length_app. simpl.
    rewrite (extends_frame _ _ HextT (current_memory c)) by done.
    change (region (current_memory c) (compiler_program c0))
      with (get_current_memory c).
    rewrite <- !app_assoc. simpl. first [done | repeat f_equal; lia].
  - rewrite !add_constant_only_memory, add_opcode_memory, select_memory_memory.
    simpl.
    rewrite (extends_frame _ _ HextT (current_memory c)) by done.
    change (region (current_memory c) (compiler_program c0))
      with (get_current_memory c).
    rewrite <- !app_assoc. simpl. do 3 f_equal.
    unfold current_code_line.
    change (get_current_memory c0) with (functions (compiler_program c)).
    rewrite to_uint32_small; [done|lia].
Qed.

(** ** Calls *)

(** X20: the arguments of a call are emitted in the order of the source,
    the first argument first (a list emits its elements last first), then
    CALL with two operands: the index of a constant that holds the name of
    the callee and the index of a constant that holds the number of
    arguments as an integer (a list holds its count as a float). *)
Theorem call_arguments_in_order l callee arguments c c' :
  compile_expression (Call l callee arguments) c = Done c' →
  Z.of_nat (length arguments) < 2 ^ 63 →
  ∃ c1,
    let k := length (constants (get_current_memory c1)) in
    foreach compile_expression arguments (set_current_line l c) = Done c1 ∧
    code (get_current_memory c') =
      code (get_current_memory c1)
      ++ [opcode_value OP_CALL; Z.of_nat k; Z.of_nat (k + 1)] ∧
    constants (get_current_memory c') =
      constants (get_current_memory c1)
      ++ [VString callee; VInt (Z.of_nat (length arguments))] ∧
    lines (get_current_memory c') = lines (get_current_memory c1) ++ [current_line c1].
Proof.
  intros H Hsmall. cbn [compile_expression Expression_line] in H. inv_Done H.
  apply Done_inj in H. subst c'. exists c0. cbv zeta. split; [done|].
  rewrite !add_constant_only_memory, add_opcode_memory. simpl.
  rewrite length_app, <- !app_assoc. simpl.
  rewrite to_int64_small by lia.
  split; [|done]. first [done | repeat f_equal; lia].
Qed.

(** ** Dictionaries: the count *)

(** X21: a dictionary emits one key constant and one value for each key of
    its key order, the last key first, then DICTIONARY with the index of a
    constant that holds a count as a float; the count is the size of the map
    of the node, not the number of keys of the key order that were
    emitted: the double whose value is exactly that size (a map smaller than
    [2^53] entries). *)
Theorem dictionary_count_is_map_size l value key_order c c' :
  compile_expression (Dictionary l value key_order) c = Done c' →
  Z.of_nat (length key_order) ≤ 2 ^ 31 →
  ∃ c1,
    foreach
      (λ key c, at_ compile_expression key value (add_constant (VString key) c))
      (rev key_order) (set_current_line l c) = Done c1 ∧
    code (get_current_memory c') =
      code (get_current_memory c1)
      ++ [opcode_value OP_DICTIONARY;
          Z.of_nat (length (constants (get_current_memory c1)))] ∧
    constants (get_current_memory c') =
      constants (get_current_memory c1)
      ++ [VFloat (double_of_Z (Z.of_nat (length value)))] ∧
    (Z.of_nat (length value) < 2 ^ 53 →
     ∃ d, last (constants (get_current_memory c')) = Some (VFloat d) ∧
          integer_of_double d = Some (Z.of_nat (length value))).
Proof.
  intros H Hsmall. cbn [compile_expression Expression_line] in H. inv_Done H.
  apply Done_inj in H. subst c'. exists c0.
  rewrite foreach_down_rev, down_count_32, firstn_all in Hc by done.
  split; [done|].
  rewrite !add_constant_only_memory, add_opcode_memory. simpl.
  rewrite <- !app_assoc. do 2 (split; [done|]).
  intros Hsize. eexists. split; [apply last_snoc|].
  apply double_of_Z_exact. lia.
Qed.

(** ** Declarations: the name is stored twice *)


End Properties.

(** * The text of a token *)

Lemma to_string_plain_cons c rest n :
  c ≠ backslash → to_string (c :: rest) (S n) = (c ::.) <$> to_string rest n.
Proof.
  intros Hc. simpl. by destruct (Ascii.eqb_spec c backslash).
Qed.

Lemma to_string_app_plain pre rest n :
  Forall (λ c, c ≠ backslash) pre →
  to_string (pre ++ rest) (length pre + n) = (pre ++.) <$> to_string rest n.
Proof.
  intros Hpre. revert n. induction Hpre as [|c pre Hc _ IH]; intros n.
  - simpl. by destruct (to_string rest n).
  - rewrite <- app_comm_cons.
    change (length (c :: pre) + n)%nat with (S (length pre + n)).
    rewrite to_string_plain_cons, IH by done.
    by destruct (to_string rest n).
Qed.

(** X13: the characters of a token before its first backslash pass through
    [to_string] unchanged: the text of a token that starts with characters
    free of backslashes is these characters followed by the text of the rest
    of the token; a token without a backslash is its own text. *)
Theorem to_string_plain pre rest n :
  Forall (λ c, c ≠ backslash) pre →
  to_string (pre ++ rest) (length pre + n) = (pre ++.) <$> to_string rest n ∧
  to_string (pre ++ rest) (length pre) = Some pre.
Proof.
  intros Hpre. split; [by apply to_string_app_plain|].
  rewrite <- (Nat.add_0_r (length pre)), to_string_app_plain by done.
  destruct rest; simpl; by rewrite app_nil_r.
Qed.


(** X15: a backslash before a character that is not one of the escaped
    characters is no escape: both characters are in the text as they are in
    the source. *)
Theorem to_string_keeps_unknown_escape pre x rest n :
  Forall (λ c, c ≠ backslash) pre →
  escaped_chars !! x = None →
  to_string (pre ++ backslash :: x :: rest) (length pre + (2 + n))
  = ((pre ++ [backslash; x]) ++.) <$> to_string rest n.
Proof.
  intros Hpre Hx. rewrite to_string_app_plain by done.
  assert (x ≠ backslash) as Hne by (by intros ->).
  change (2 + n)%nat with (S (S n)).
  cbn [to_string]. change (Ascii.eqb backslash backslash) with true. cbv iota.
  rewrite Hx. destruct (Ascii.eqb_spec x backslash) as [|_]; [done|].
  destruct (to_string rest n); simpl; [|done]. by rewrite <- app_assoc.
Qed.

(** X23: a backslash before one of the escaped characters stands, with that
    character, for one character of the text, the escape; the text goes on
    after the two characters, so that the character after a doubled
    backslash starts no escape. *)
Theorem to_string_escape pre x e rest n :
  Forall (λ c, c ≠ backslash) pre →
  escaped_chars !! x = Some e →
  to_string (pre ++ backslash :: x :: rest) (length pre + (2 + n))
  = ((pre ++ [e]) ++.) <$> to_string rest n.
Proof.
  intros Hpre Hx. rewrite to_string_app_plain by done.
  change (2 + n)%nat with (S (S n)).
  cbn [to_string]. change (Ascii.eqb backslash backslash) with true. cbv iota.
  rewrite Hx. cbn [pred].
  destruct (to_string rest n); simpl; [|done]. by rewrite <- app_assoc.
Qed.

(** X16: every step of [to_string] gives one character of the text and
    takes one or two characters of the token: the text is no longer than the
    token and at least half as long. *)
Theorem to_string_lengths n source out :
  to_string source n = Some out → (length out ≤ n ≤ 2 * length out)%nat.
Proof.
  revert source out. induction n as [n IH] using lt_wf_ind. intros source out.
  destruct n as [|n]; [destruct source; intros [= <-]; simpl; lia|].
  destruct source as [|c rest].
  - simpl. destruct n; [|done]. intros [= <-]. simpl. lia.
  - cbn [to_string]. destruct (Ascii.eqb c backslash).
    + destruct rest as [|nc rest'].
      * destruct (to_string [] n) eqn:E; simpl; [|done]. intros [= <-].
        apply IH in E; [|lia]. simpl. lia.
      * destruct (escaped_chars !! nc).
        -- destruct (to_string rest' (pred n)) eqn:E; simpl; [|done]. intros [= <-].
           apply IH in E; [|lia]. simpl. lia.
        -- destruct (to_string (nc :: rest') n) eqn:E; simpl; [|done]. intros [= <-].
           apply IH in E; [|lia]. simpl. lia.
    + destruct (to_string rest n) eqn:E; simpl; [|done]. intros [= <-].
      apply IH in E; [|lia]. simpl. lia.
Qed.

(** X17: [to_string] stays inside the source text exactly when the token
    ends at most one character after the text, the terminating NUL.  For a
    token that lies in the source every read is defined; for a longer token
    the loop reads past the terminator, whatever escapes the text holds. *)
Theorem to_string_defined_in_source n source :
  to_string source n = None ↔ (length source + 2 ≤ n)%nat.
Proof.
  revert source. induction n as [n IH] using lt_wf_ind. intros source.
  destruct n as [|n]; [destruct source; simpl; (split; [done|lia])|].
  destruct source as [|c rest].
  - simpl. destruct n; split; try done; lia.
  - cbn [to_string].
    assert (∀ x (o : option (list ascii)), (x ::.) <$> o = None ↔ o = None) as Hmap.
    { intros x [o|]; simpl; split; done. }
    destruct (Ascii.eqb c backslash).
    + destruct rest as [|nc rest'].
      * rewrite Hmap, IH by lia. simpl. lia.
      * destruct (escaped_chars !! nc).
        -- rewrite Hmap. destruct n as [|n].
           ++ simpl. destruct rest'; simpl; (split; [done|lia]).
           ++ simpl pred. rewrite IH by lia. simpl. lia.
        -- rewrite Hmap, IH by lia. simpl. lia.
    + rewrite Hmap, IH by lia. simpl. lia.
Qed.

(** * The properties on concrete programs *)

(** ** If without an else branch: [if true: print 1] *)

Lemma if_offset_counts_then_branch_witness :
  let s := If 1 (Boolean 1 true) [Print 2 (Integer 2 1)] [] in
  ∃ c',
    compile_statement (opcodes := table_order) s new_compiler = Done c' ∧
    Z.of_nat (length (code (get_current_memory c'))) < 2 ^ 32 ∧
    ∃ c1 c3 then_code,
      compile_expression (opcodes := table_order) (Boolean 1 true)
        (set_current_line 1 new_compiler) = Done c1 ∧
      foreach (compile_statement (opcodes := table_order)) [Print 2 (Integer 2 1)]
        (add_constant_only (VInt 0)
           (add_opcode (opcodes := table_order) OP_BRANCH_FALSE c1)).1 = Done c3 ∧
      code (get_current_memory c3) = code (get_current_memory c') ∧
      code (get_current_memory c') =
        code (get_current_memory c1)
        ++ [table_order OP_BRANCH_FALSE;
            Z.of_nat (length (constants (get_current_memory c1)))] ++ then_code ∧
      constants (get_current_memory c') !! length (constants (get_current_memory c1))
        = Some (VInt (Z.of_nat (length then_code))) ∧
      Z.of_nat (length then_code)
        = Z.of_nat (length (code (get_current_memory c')))
          - Z.of_nat (length (code (get_current_memory c1)) + 2).
Proof.
  eexists. split; [vm_compute; reflexivity|]. split; [vm_compute; reflexivity|].
  apply (if_offset_counts_then_branch (opcodes := table_order)
           1 (Boolean 1 true) [Print 2 (Integer 2 1)] new_compiler);
    vm_compute; reflexivity.
Defined.

(** ** If with an else branch *)

Lemma if_with_else_emits_nothing_witness :
  [Print 3 (Integer 3 2)] ≠ [] ∧
  ∃ c',
    compile_statement (opcodes := table_order)
      (If 1 (Boolean 1 true) [Print 2 (Integer 2 1)] [Print 3 (Integer 3 2)])
      new_compiler = Done c' ∧
    compiler_program c' = compiler_program new_compiler ∧
    current_memory c' = current_memory new_compiler.
Proof.
  split; [discriminate|].
  apply (if_with_else_emits_nothing (opcodes := table_order)). discriminate.
Defined.

(** ** While: [while true: ] *)

Lemma while_rjump_offset_witness :
  let s := While 1 (Boolean 1 true) [] in
  ∃ c',
    compile_statement (opcodes := table_order) s new_compiler = Done c' ∧
    Z.of_nat (length (code (get_current_memory c'))) < 2 ^ 32 ∧
    ∃ inner k,
      code (get_current_memory c') =
        code (get_current_memory new_compiler) ++ inner
        ++ [table_order OP_RJUMP; Z.of_nat k] ∧
      constants (get_current_memory c') !! k
        = Some (VInt (- (Z.of_nat (length (code (get_current_memory c'))) - 1
                         - Z.of_nat (length (code (get_current_memory new_compiler)))))) ∧
      Z.of_nat (length (code (get_current_memory c'))) - 1
      - Z.of_nat (length (code (get_current_memory new_compiler)))
        = Z.of_nat (length inner) + 1.
Proof.
  eexists. split; [vm_compute; reflexivity|]. split; [vm_compute; reflexivity|].
  apply (while_rjump_offset (opcodes := table_order)
           1 (Boolean 1 true) [] new_compiler);
    vm_compute; reflexivity.
Defined.

(** The loop head of [while true: ] is slot 0 and its code is PUSH, 0,
    BRANCH_FALSE, 1, RJUMP, 2: the RJUMP operand is slot 5 and the slot after
    it is slot 6, the code length.  The operand constant is -5, not -(6 - 0). *)
Lemma while_rjump_counterexample :
  let s := While 1 (Boolean 1 true) [] in
  ∃ c',
    compile_statement (opcodes := table_order) s new_compiler = Done c' ∧
    code (get_current_memory c') =
      [table_order OP_PUSH; 0; table_order OP_BRANCH_FALSE; 1; table_order OP_RJUMP; 2] ∧
    constants (get_current_memory c') !! 2%nat = Some (VInt (-5)) ∧
    constants (get_current_memory c') !! 2%nat
      ≠ Some (VInt (- (Z.of_nat (length (code (get_current_memory c')))
                       - Z.of_nat (length (code (get_current_memory new_compiler)))))).
Proof.
  eexists. split; [vm_compute; reflexivity|].
  split; [reflexivity|]. split; [reflexivity|]. discriminate.
Qed.

(** ** Function literals: [fn(x: int) -> int { return x + 1 }] *)

Lemma function_body_ends_with_trailer_witness :
  ∃ c',
    compile_expression (opcodes := table_order) increment new_compiler = Done c' ∧
    ∃ cb,
      compile_function_body (opcodes := table_order)
        [Declaration 1 "x" "int" None]
        [Return 1 (Binary 1 (Variable_ 1 "x") {| type := TOKEN_PLUS; line := 1 |}
                     (Integer 1 1))]
        (select_memory FUNCTIONS_MEMORY (set_current_line 1 new_compiler)) = Done cb ∧
      current_memory cb = FUNCTIONS_MEMORY ∧
      code (functions (compiler_program c')) =
        code (functions (compiler_program cb))
        ++ [table_order OP_PUSH;
            Z.of_nat (length (constants (functions (compiler_program cb))));
            table_order OP_RETURN]
        ++ (if decide (current_memory new_compiler = FUNCTIONS_MEMORY)
            then [table_order OP_FUNCTION;
                  Z.of_nat (length (constants (functions (compiler_program cb))) + 1);
                  Z.of_nat (length (constants (functions (compiler_program cb))) + 2)]
            else []) ∧
      constants (functions (compiler_program c'))
        !! length (constants (functions (compiler_program cb))) = Some VNone.
Proof.
  eexists. split; [vm_compute; reflexivity|].
  apply (function_body_ends_with_trailer (opcodes := table_order)
           1 [Declaration 1 "x" "int" None] "int"
           [Return 1 (Binary 1 (Variable_ 1 "x") {| type := TOKEN_PLUS; line := 1 |}
                        (Integer 1 1))] new_compiler).
  vm_compute; reflexivity.
Defined.

Lemma function_restores_selector_witness :
  ∃ c',
    compile_expression (opcodes := table_order) increment new_compiler = Done c' ∧
    current_memory c' = current_memory new_compiler ∧
    code (get_current_memory c') = [table_order OP_FUNCTION; 0; 1] ∧
    constants (get_current_memory c') = [VInt 0; VString "int"].
Proof.
  eexists. split; [vm_compute; reflexivity|].
  destruct (function_restores_selector (opcodes := table_order)
              1 [Declaration 1 "x" "int" None] "int"
              [Return 1 (Binary 1 (Variable_ 1 "x") {| type := TOKEN_PLUS; line := 1 |}
                           (Integer 1 1))] new_compiler _ eq_refl)
    as (Hselector & cb & _).
  split; [exact Hselector|]. split; reflexivity.
Defined.

(** ** Lists: [[1, 2, 3]], whose count is 3.0, the double [3 * 2^51 * 2^-51] *)

Lemma list_reversed_count_is_float_witness :
  let value := [Integer 1 1; Integer 1 2; Integer 1 3] in
  Z.of_nat (length value) < 2 ^ 31 ∧
  ∃ c',
    compile_expression (opcodes := table_order) (List_ 1 value) new_compiler = Done c' ∧
    constants (get_current_memory c') =
      [VInt 3; VInt 2; VInt 1; VFloat (S754_finite false 6755399441055744 (-51))] ∧
    ∃ c1 count,
      foreach (compile_expression (opcodes := table_order)) (rev value)
        (set_current_line 1 new_compiler) = Done c1 ∧
      code (get_current_memory c') =
        code (get_current_memory c1)
        ++ [table_order OP_LIST; Z.of_nat (length (constants (get_current_memory c1)))] ∧
      constants (get_current_memory c') = constants (get_current_memory c1) ++ [count] ∧
      count = VFloat (double_of_Z (Z.of_nat (length value))) ∧
      is_float count = true ∧ is_int count = false ∧
      ∃ d, count = VFloat d ∧ integer_of_double d = Some 3.
Proof.
  split; [vm_compute; reflexivity|].
  eexists. split; [vm_compute; reflexivity|]. split; [vm_compute; reflexivity|].
  apply (proj1 (list_reversed_count_is_float (opcodes := table_order))
           1 [Integer 1 1; Integer 1 2; Integer 1 3] new_compiler);
    vm_compute; reflexivity.
Defined.

(** ** Stops *)

Lemma compile_stops_by_the_tree_witness :
  compile_statement (opcodes := table_order) (Statement_ RULE_STATEMENT 1) new_compiler
    = Exit InvalidRule ∧
  statement_sound (Statement_ RULE_STATEMENT 1) = false.
Proof.
  split; [reflexivity|].
  destruct (compile_stops_by_the_tree (opcodes := table_order))
    as (_ & _ & _ & Hexit & _).
  apply (Hexit (Statement_ RULE_STATEMENT 1) new_compiler InvalidRule). reflexivity.
Defined.

(** The dictionary of a key order ["k"] over an empty map has none of the
    three structural situations, and its emission neither completes nor
    exits: [at] throws. *)
Lemma missing_key_counterexample :
  let s := ExpressionStatement 1 (Dictionary 1 [] ["k"%string]) in
  statement_sound s = true ∧
  compile_statement (opcodes := table_order) s new_compiler = OutOfRange ∧
  (∀ c', compile_statement (opcodes := table_order) s new_compiler ≠ Done c') ∧
  (∀ err, compile_statement (opcodes := table_order) s new_compiler ≠ Exit err).
Proof. split; [reflexivity|]. split; [reflexivity|]. split; discriminate. Qed.

(** ** The back-patch primitive *)

Lemma modify_constant_checks_nothing_witness :
  let c := (add_constant_only (VInt 0) new_compiler).1 in
  0 ≤ 0 < Z.of_nat (length (constants (get_current_memory c))) ∧
  ∃ c',
    modify_constant 0 (VInt 7) c = Done c' ∧
    constants (get_current_memory c') = [VInt 7] ∧
    code (get_current_memory c') = code (get_current_memory c).
Proof.
  split; [split; [lia | vm_compute; reflexivity]|].
  destruct (proj1 (modify_constant_checks_nothing 0 (VInt 7)
                     (add_constant_only (VInt 0) new_compiler).1))
    as (c' & Hdone & Hpool & _ & _ & Hcode & _).
  - split; [lia | vm_compute; reflexivity].
  - exists c'. split; [exact Hdone|]. split; [exact Hpool | exact Hcode].
Defined.

(** On a fresh compiler the pool is empty: index 0 is past its end, and the
    call to [modify_constant] is no fatal exit. *)
Lemma modify_constant_counterexample :
  Z.of_nat (length (constants (get_current_memory new_compiler))) ≤ 0 ∧
  modify_constant 0 VNone new_compiler = Undefined ∧
  ¬ ∃ err, modify_constant 0 VNone new_compiler = Exit err.
Proof.
  split; [reflexivity|]. split; [reflexivity|]. intros [err Herr]. discriminate.
Qed.

(** ** Lines: [print 7] *)

(** C1, on the code: after [print 7] is compiled with a fresh compiler, the
    code stream of the program region has the four slots PUSH, 0, PRINT, EXIT
    and its lines stream the three lines of PUSH, PRINT and EXIT: no line is
    recorded for the slot of the constant-pool index. *)
Theorem print_lines_shorter_than_code :
  ∃ p,
    compile (opcodes := table_order) [Print 1 (Integer 1 7)] new_compiler = Done p ∧
    code (program p) = [table_order OP_PUSH; 0; table_order OP_PRINT; table_order OP_EXIT] ∧
    lines (program p) = [1; 1; 1] ∧
    length (code (program p)) ≠ length (lines (program p)).
Proof.
  eexists. split; [vm_compute; reflexivity|].
  split; [reflexivity|]. split; [reflexivity|]. discriminate.
Qed.

(** ** Declarations: [x: int = 5] *)

(** The code stream is not DECLARE, 0, 1, PUSH, 2, STORE, 0, POP, EXIT and the
    pool has not three entries: the STORE operand is 3. *)
Lemma declaration_counterexample :
  ∃ p,
    compile (opcodes := table_order)
      [Declaration 1 "x" "int" (Some (Integer 1 5))] new_compiler = Done p ∧
    code (program p) ≠
      [table_order OP_DECLARE; 0; 1; table_order OP_PUSH; 2; table_order OP_STORE; 0;
       table_order OP_POP; table_order OP_EXIT] ∧
    length (constants (program p)) ≠ 3%nat ∧
    code (program p) !! 6%nat = Some 3.
Proof.
  eexists. split; [vm_compute; reflexivity|].
  split; [discriminate|]. split; [discriminate | reflexivity].
Qed.

(** ** The streams of a compiled program: [print 7] and [while true: print 1] *)

Lemma compile_balanced_witness :
  balanced new_compiler ∧
  ∃ p,
    compile (opcodes := table_order) [Print 1 (Integer 1 7)] new_compiler = Done p ∧
    ∀ r,
      length (code (region r p)) =
      (length (lines (region r p)) + length (constants (region r p)))%nat.
Proof.
  split; [by intros []|].
  eexists. split; [vm_compute; reflexivity|].
  apply (compile_balanced (opcodes := table_order) [Print 1 (Integer 1 7)] new_compiler);
    [vm_compute; reflexivity | by intros []].
Defined.


Lemma statement_only_appends_witness :
  let c := add_constant (opcodes := table_order) (VInt 9) new_compiler in
  ∃ c',
    compile_statement (opcodes := table_order)
      (While 1 (Boolean 1 true) [Print 2 (Integer 2 1)]) c = Done c' ∧
    current_memory c' = current_memory c ∧
    ∀ r,
      code (region r (compiler_program c))
        `prefix_of` code (region r (compiler_program c')) ∧
      lines (region r (compiler_program c))
        `prefix_of` lines (region r (compiler_program c')) ∧
      constants (region r (compiler_program c))
        `prefix_of` constants (region r (compiler_program c')).
Proof.
  eexists. split; [vm_compute; reflexivity|].
  apply (statement_only_appends (opcodes := table_order)
           (While 1 (Boolean 1 true) [Print 2 (Integer 2 1)])).
  vm_compute; reflexivity.
Defined.

Lemma compile_leaves_classes_witness :
  current_memory new_compiler ≠ CLASSES_MEMORY ∧
  ∃ p,
    compile (opcodes := table_order) [ExpressionStatement 1 increment] new_compiler
      = Done p ∧
    classes p = classes (compiler_program new_compiler).
Proof.
  split; [discriminate|].
  eexists. split; [vm_compute; reflexivity|].
  apply (compile_leaves_classes (opcodes := table_order)
           [ExpressionStatement 1 increment] new_compiler);
    [vm_compute; reflexivity | discriminate].
Defined.

Lemma compile_without_literal_leaves_functions_witness :
  let structure := [While 1 (Boolean 1 true) [Print 2 (Integer 2 1)]] in
  forallb statement_function_free structure = true ∧
  current_memory new_compiler ≠ FUNCTIONS_MEMORY ∧
  ∃ p,
    compile (opcodes := table_order) structure new_compiler = Done p ∧
    functions p = functions (compiler_program new_compiler).
Proof.
  split; [reflexivity|]. split; [discriminate|].
  eexists. split; [vm_compute; reflexivity|].
  apply (compile_without_literal_leaves_functions (opcodes := table_order)
           [While 1 (Boolean 1 true) [Print 2 (Integer 2 1)]] new_compiler);
    [reflexivity | discriminate | vm_compute; reflexivity].
Defined.

Lemma while_exit_offset_witness :
  ∃ c',
    compile_statement (opcodes := table_order)
      (While 1 (Boolean 1 true) [Print 2 (Integer 2 1)]) new_compiler = Done c' ∧
    Z.of_nat (length (code (get_current_memory c'))) < 2 ^ 32 ∧
    ∃ c1 body_code k,
      compile_expression (opcodes := table_order) (Boolean 1 true)
        (set_current_line 1 new_compiler) = Done c1 ∧
      code (get_current_memory c') =
        code (get_current_memory c1)
        ++ [table_order OP_BRANCH_FALSE;
            Z.of_nat (length (constants (get_current_memory c1)))]
        ++ body_code ++ [table_order OP_RJUMP; Z.of_nat k] ∧
      constants (get_current_memory c') !! length (constants (get_current_memory c1))
        = Some (VInt (Z.of_nat (length body_code) + 3)).
Proof.
  eexists. split; [vm_compute; reflexivity|]. split; [vm_compute; reflexivity|].
  apply (while_exit_offset (opcodes := table_order)
           1 (Boolean 1 true) [Print 2 (Integer 2 1)] new_compiler);
    vm_compute; reflexivity.
Defined.

(** ** A logical expression: [true or false] *)

Lemma unrecognized_operator_never_completes_witness :
  let op := {| type := TOKEN_OR; line := 3 |} in
  is_operator (type op) = false ∧
  compile_expression (opcodes := table_order)
    (Logical 3 (Boolean 3 true) op (Boolean 3 false)) new_compiler
    = Exit (UnknownOperation 3).
Proof.
  split; [reflexivity|].
  destruct (unrecognized_operator_never_completes (opcodes := table_order)
              {| type := TOKEN_OR; line := 3 |} 3 (Boolean 3 true) (Boolean 3 false)
              new_compiler eq_refl) as (_ & _ & _ & Hexit & _).
  apply Hexit; reflexivity.
Defined.

(** ** A dictionary with a key that has no entry *)

Lemma dictionary_missing_key_never_completes_witness :
  let key_order := ["k"%string] in
  let value : list (string * Expression) := [] in
  "k"%string ∈ key_order ∧
  ("k"%string ∉ value.*1) ∧
  Z.of_nat (length key_order) ≤ 2 ^ 31 ∧
  ∀ c',
    compile_expression (opcodes := table_order) (Dictionary 1 value key_order)
      new_compiler ≠ Done c'.
Proof.
  split; [by constructor|]. split; [apply not_elem_of_nil|].
  split; [vm_compute; discriminate|].
  apply (dictionary_missing_key_never_completes (opcodes := table_order)
           1 [] ["k"%string] "k"%string new_compiler);
    [by constructor | apply not_elem_of_nil | vm_compute; discriminate].
Defined.

(** ** Function literals with 1 and with 32769 arguments *)

Lemma parameter_bindings_count_witness :
  let one := [Declaration 1 "x" "int" None] in
  let many := repeat (Declaration 1 "x" "int" None) (Z.to_nat (2 ^ 15 + 1)) in
  Z.of_nat (length one) ≤ 2 ^ 15 ∧
  Z.of_nat (length many) = 2 ^ 15 + 1 ∧
  compile_function_body (opcodes := table_order) one [] new_compiler =
    (c1 ← foreach (compile_statement (opcodes := table_order)) one new_compiler;
     c2 ← foreach (bind_argument (opcodes := table_order)) (rev one) c1;
     foreach (compile_statement (opcodes := table_order)) [] c2) ∧
  compile_function_body (opcodes := table_order) many [] new_compiler =
    (c1 ← foreach (compile_statement (opcodes := table_order)) many new_compiler;
     foreach (compile_statement (opcodes := table_order)) [] c1).
Proof.
  split; [vm_compute; discriminate|].
  split; [rewrite repeat_length; reflexivity|].
  split.
  - apply (proj1 (parameter_bindings_count (opcodes := table_order)
                    [Declaration 1 "x" "int" None] [] new_compiler)).
    vm_compute; discriminate.
  - apply (proj2 (parameter_bindings_count (opcodes := table_order)
                    (repeat (Declaration 1 "x" "int" None) (Z.to_nat (2 ^ 15 + 1)))
                    [] new_compiler)).
    rewrite repeat_length; reflexivity.
Defined.

(** ** Code is emitted *)

Lemma expression_emits_code_witness :
  ∃ c',
    compile_expression (opcodes := table_order) (Group 1 (Variable_ 1 "a")) new_compiler
      = Done c' ∧
    (length (code (get_current_memory new_compiler))
     < length (code (get_current_memory c')))%nat.
Proof.
  eexists. split; [vm_compute; reflexivity|].
  apply (expression_emits_code (opcodes := table_order)
           (Group 1 (Variable_ 1 "a")) new_compiler).
  vm_compute; reflexivity.
Defined.

Lemma statement_emits_code_witness :
  let s := Return 1 (Variable_ 1 "a") in
  (∀ l condition thenBranch elseBranch,
     s = If l condition thenBranch elseBranch → elseBranch = []) ∧
  ∃ c',
    compile_statement (opcodes := table_order) s new_compiler = Done c' ∧
    (length (code (get_current_memory new_compiler))
     < length (code (get_current_memory c')))%nat.
Proof.
  split; [discriminate|].
  eexists. split; [vm_compute; reflexivity|].
  apply (statement_emits_code (opcodes := table_order)
           (Return 1 (Variable_ 1 "a")) new_compiler);
    [vm_compute; reflexivity | discriminate].
Defined.

(** ** The text of tokens *)

Lemma to_string_plain_witness :
  let pre := ["a"; "b"]%char in
  Forall (λ c, c ≠ backslash) pre ∧
  to_string (pre ++ ["c"; "d"]%char) (length pre + 1) = Some ["a"; "b"; "c"]%char ∧
  to_string (pre ++ ["c"; "d"]%char) (length pre) = Some pre.
Proof.
  assert (Forall (λ c, c ≠ backslash) ["a"; "b"]%char) as Hpre
    by (repeat constructor; discriminate).
  split; [exact Hpre|].
  destruct (to_string_plain ["a"; "b"]%char ["c"; "d"]%char 1 Hpre) as [H1 H2].
  split; [exact H1 | exact H2].
Defined.


Lemma to_string_keeps_unknown_escape_witness :
  let pre := ["a"]%char in
  Forall (λ c, c ≠ backslash) pre ∧
  escaped_chars !! "q"%char = None ∧
  to_string (pre ++ backslash :: "q"%char :: ["z"]%char) (length pre + (2 + 1))
    = Some ["a"; "092"; "q"; "z"]%char.
Proof.
  assert (Forall (λ c, c ≠ backslash) ["a"]%char) as Hpre
    by (repeat constructor; discriminate).
  split; [exact Hpre|]. split; [vm_compute; reflexivity|].
  apply (to_string_keeps_unknown_escape ["a"]%char "q"%char ["z"]%char 1 Hpre).
  vm_compute; reflexivity.
Defined.

Lemma to_string_lengths_witness :
  let source := ["a"; "092"; "n"; "b"]%char in
  to_string source 4 = Some ["a"; "010"; "b"]%char ∧
  (length ["a"; "010"; "b"]%char ≤ 4 ≤ 2 * length ["a"; "010"; "b"]%char)%nat.
Proof.
  split; [vm_compute; reflexivity|].
  apply (to_string_lengths 4 ["a"; "092"; "n"; "b"]%char).
  vm_compute; reflexivity.
Defined.

Lemma to_string_escape_witness :
  let pre := ["a"]%char in
  Forall (λ c, c ≠ backslash) pre ∧
  escaped_chars !! backslash = Some backslash ∧
  to_string (pre ++ backslash :: backslash :: ["n"; "b"]%char) (length pre + (2 + 2))
    = Some ["a"; "092"; "n"; "b"]%char.
Proof.
  assert (Forall (λ c, c ≠ backslash) ["a"]%char) as Hpre
    by (repeat constructor; discriminate).
  split; [exact Hpre|]. split; [vm_compute; reflexivity|].
  apply (to_string_escape ["a"]%char backslash backslash ["n"; "b"]%char 2 Hpre).
  vm_compute; reflexivity.
Defined.

(** ** The current line: [print 1 + 2] with the operator on line 2 *)

Lemma current_line_is_of_last_node_witness :
  let e := Binary 1 (Integer 1 1) {| type := TOKEN_PLUS; line := 2 |} (Integer 3 2) in
  ∃ c',
    compile_statement (opcodes := table_order) (Print 1 e) new_compiler = Done c' ∧
    current_line c' = 2 ∧
    last (lines (get_current_memory c')) = Some 2.
Proof.
  eexists. split; [vm_compute; reflexivity|].
  destruct (current_line_is_of_last_node (opcodes := table_order)) as (_ & Hs & Hp).
  split.
  - apply (Hs (Print 1 (Binary 1 (Integer 1 1) {| type := TOKEN_PLUS; line := 2 |}
                          (Integer 3 2))) new_compiler).
    vm_compute; reflexivity.
  - apply (Hp 1 (Binary 1 (Integer 1 1) {| type := TOKEN_PLUS; line := 2 |}
                   (Integer 3 2)) new_compiler).
    vm_compute; reflexivity.
Defined.

(** ** A function literal at the top level, after [print 7] in a function *)

Lemma function_index_is_entry_point_witness :
  let c := select_memory PROGRAM_MEMORY
             (add_opcode (opcodes := table_order) OP_PRINT
                (add_constant (opcodes := table_order) (VInt 7)
                   (select_memory FUNCTIONS_MEMORY new_compiler))) in
  current_memory c ≠ FUNCTIONS_MEMORY ∧
  Z.of_nat (length (code (functions (compiler_program c)))) < 2 ^ 32 ∧
  ∃ c',
    compile_expression (opcodes := table_order) increment c = Done c' ∧
    ∃ function_code,
      code (functions (compiler_program c')) =
        code (functions (compiler_program c)) ++ function_code ∧
      code (get_current_memory c') =
        code (get_current_memory c) ++ [table_order OP_FUNCTION; 0; 1] ∧
      constants (get_current_memory c') =
        constants (get_current_memory c) ++ [VInt 3; VString "int"].
Proof.
  split; [discriminate|]. split; [vm_compute; reflexivity|].
  eexists. split; [vm_compute; reflexivity|].
  apply (function_index_is_entry_point (opcodes := table_order)
           1 [Declaration 1 "x" "int" None] "int"
           [Return 1 (Binary 1 (Variable_ 1 "x") {| type := TOKEN_PLUS; line := 1 |}
                        (Integer 1 1))]);
    [vm_compute; reflexivity | discriminate | vm_compute; reflexivity].
Defined.

(** ** A call: [f(1, 2)] *)

Lemma call_arguments_in_order_witness :
  let arguments := [Integer 1 1; Integer 1 2] in
  Z.of_nat (length arguments) < 2 ^ 63 ∧
  ∃ c' c1,
    compile_expression (opcodes := table_order) (Call 1 "f" arguments) new_compiler
      = Done c' ∧
    foreach (compile_expression (opcodes := table_order)) arguments
      (set_current_line 1 new_compiler) = Done c1 ∧
    code (get_current_memory c') =
      code (get_current_memory c1) ++ [table_order OP_CALL; 2; 3] ∧
    constants (get_current_memory c') = [VInt 1; VInt 2; VString "f"; VInt 2].
Proof.
  split; [vm_compute; reflexivity|].
  destruct (call_arguments_in_order (opcodes := table_order)
              1 "f" [Integer 1 1; Integer 1 2] new_compiler
              _ eq_refl eq_refl) as (c1 & H1 & H2 & H3 & _).
  eexists _, c1. split; [reflexivity|]. split; [exact H1|].
  apply Done_inj in H1. subst c1. split; [exact H2 | exact H3].
Defined.

(** ** A dictionary of two entries with one of them in its key order: one
    key is emitted and the count is 2.0, the double [2 * 2^51 * 2^-51] *)

Lemma dictionary_count_is_map_size_witness :
  let value := [("a"%string, Integer 1 1); ("b"%string, Integer 1 2)] in
  let key_order := ["b"%string] in
  Z.of_nat (length key_order) ≤ 2 ^ 31 ∧
  Z.of_nat (length value) < 2 ^ 53 ∧
  ∃ c',
    compile_expression (opcodes := table_order) (Dictionary 1 value key_order)
      new_compiler = Done c' ∧
    constants (get_current_memory c') =
      [VString "b"; VInt 2; VFloat (S754_finite false 4503599627370496 (-51))] ∧
    ∃ d, last (constants (get_current_memory c')) = Some (VFloat d) ∧
         integer_of_double d = Some 2.
Proof.
  split; [vm_compute; discriminate|]. split; [vm_compute; reflexivity|].
  eexists. split; [vm_compute; reflexivity|]. split; [vm_compute; reflexivity|].
  destruct (dictionary_count_is_map_size (opcodes := table_order)
              1 [("a"%string, Integer 1 1); ("b"%string, Integer 1 2)] ["b"%string]
              new_compiler _ eq_refl) as (c1 & _ & _ & _ & Hcount);
    [vm_compute; discriminate|].
  apply Hcount. vm_compute; reflexivity.
Defined.

(** ** A declaration with an initializer: [x: int = 5] after [print 7] *)

